(** * Betweenness centrality of graph-tool: a shallow embedding

    This development embeds [src/graph/centrality/graph_betweenness.cc]:
    the normalisation pass [normalize_betweenness], the two dispatched
    functors [get_betweenness] and [get_weighted_betweenness], the entry
    points [betweenness] and [central_point], and what they call.

    Conventions.
    - [size_t] values are integers in [Z] reduced modulo [2^64]; [int] is
      the 32-bit two's complement range.
    - The C++ code is a template over the value type of the property maps.
      The embedding is generic over a [Scalar] interface in the same way,
      with three instances: IEEE binary64 ([double], primitive floats),
      truncating integers (integer-valued maps) and exact rationals.
    - Property maps are handles on shared storage: a [boost::any] carries
      the key kind, the value type and the storage it points to, and the
      storages live in the [world] that the entry points thread. *)

From Stdlib Require Import ZArith Znumtheory QArith Floats Bool List Lia.
From stdpp Require Import gmap strings list fin_maps.

Local Open Scope Z_scope.

(** ** Machine integers *)

Definition size_t_wrap (z : Z) : Z := z mod 2 ^ 64.

Definition int_wrap (z : Z) : Z := (z + 2 ^ 31) mod 2 ^ 32 - 2 ^ 31.

(** ** Value types of property maps

    The code is instantiated once per value type; [Scalar] lists the
    operations the instantiations use. *)

Class Scalar (F : Type) := {
  s_zero : F;
  s_one : F;
  s_of_Z : Z -> F;
  s_add : F -> F -> F;
  s_sub : F -> F -> F;
  s_mul : F -> F -> F;
  s_div : F -> F -> F;
  s_ltb : F -> F -> bool;
  s_eqb : F -> F -> bool
}.

(** [double]: IEEE 754 binary64, integers converted with rounding to
    nearest even. *)
Definition double_of_Z (z : Z) : float :=
  SF2Prim (binary_normalize 53 1024 z 0 false).

#[export] Instance double_scalar : Scalar float := {|
  s_zero := 0%float;
  s_one := 1%float;
  s_of_Z := double_of_Z;
  s_add := PrimFloat.add;
  s_sub := PrimFloat.sub;
  s_mul := PrimFloat.mul;
  s_div := PrimFloat.div;
  s_ltb := PrimFloat.ltb;
  s_eqb := PrimFloat.eqb
|}.

(** Integer value types: division truncates towards zero. *)
#[export] Instance integer_scalar : Scalar Z := {|
  s_zero := 0;
  s_one := 1;
  s_of_Z := fun z => z;
  s_add := Z.add;
  s_sub := Z.sub;
  s_mul := Z.mul;
  s_div := Z.quot;
  s_ltb := Z.ltb;
  s_eqb := Z.eqb
|}.

(** Exact arithmetic: the rationals. *)
#[export] Instance exact_scalar : Scalar Q := {|
  s_zero := 0%Q;
  s_one := 1%Q;
  s_of_Z := inject_Z;
  s_add := Qplus;
  s_sub := Qminus;
  s_mul := Qmult;
  s_div := Qdiv;
  s_ltb := fun a b => negb (Qle_bool b a);
  s_eqb := Qeq_bool
|}.

(** ** Graphs *)

Record edge_descriptor := Edge {
  source : nat;
  target : nat;
  edge_index : nat
}.

Definition flip_edge (e : edge_descriptor) : edge_descriptor :=
  Edge (target e) (source e) (edge_index e).

(** A graph view, as the dispatched functors receive it ([Graph* gp]).
    [vertex_ok i = false] means [vertex(i, g)] is [null_vertex] (the vertex
    is filtered out). *)
Record Graph := {
  num_vertices : nat;
  vertex_ok : nat -> bool;
  edges : list edge_descriptor;
  is_undirected : bool
}.

Definition vertices (g : Graph) : list nat :=
  List.filter (vertex_ok g) (seq 0 (num_vertices g)).

(** Out-edges; on an undirected view every edge is seen from both ends. *)
Definition out_edges (g : Graph) (u : nat) : list edge_descriptor :=
  List.filter (fun e => Nat.eqb (source e) u) (edges g) ++
  (if is_undirected g
   then map flip_edge (List.filter (fun e => Nat.eqb (target e) u) (edges g))
   else []).

(** The graph interface the entry points receive ([GraphInterface& g]). *)
Record GraphInterface := {
  gi_num_vertices : nat;
  gi_edges : list edge_descriptor;
  gi_directed : bool;
  gi_reversed : bool;
  gi_vertex_filter : nat -> bool
}.

Definition edge_visible (gi : GraphInterface) (e : edge_descriptor) : bool :=
  gi_vertex_filter gi (source e) && gi_vertex_filter gi (target e).

(** Modelled from the spec: the graph view a dispatch hands to its action;
    missing is graph_filtering.hh, which builds the views. The view shows
    the vertices that pass the filter and the edges between them; it is
    undirected when the interface is not directed, and reversed when the
    interface is reversed and the dispatch admits reversed views. *)
Definition GetGraphView (admit_reversed : bool) (gi : GraphInterface) : Graph :=
  let es := List.filter (edge_visible gi) (gi_edges gi) in
  {| num_vertices := gi_num_vertices gi;
     vertex_ok := gi_vertex_filter gi;
     edges := if admit_reversed && gi_directed gi && gi_reversed gi
              then map flip_edge es else es;
     is_undirected := negb (gi_directed gi) |}.

(** Modelled from the spec: the vertex count [n]; missing is the body of
    [GraphInterface::GetNumberOfVertices] (graph.hh declares it). The count
    is the number of vertices of the view, as a [size_t]. *)
Definition GetNumberOfVertices (gi : GraphInterface) : Z :=
  size_t_wrap (Z.of_nat (length (vertices (GetGraphView false gi)))).

(** ** Property maps and their storage *)

Inductive value_type :=
| t_bool | t_int32_t | t_int64_t | t_double | t_long_double
| t_string | t_object.

#[export] Instance value_type_eq_dec : EqDecision value_type.
Proof. solve_decision. Defined.

Inductive key_kind := vertex_key | edge_key.

#[export] Instance key_kind_eq_dec : EqDecision key_kind.
Proof. solve_decision. Defined.

(** A property map is a handle: copies share the storage. *)
Record property_map := PMap {
  pm_kind : key_kind;
  pm_type : value_type;
  pm_storage : nat
}.

(** [boost::any]: empty, a property map, or something else. *)
Inductive any :=
| any_empty
| any_property (p : property_map)
| any_other.

(** Modelled from the spec: the floating-point value types; missing are the
    type lists of graph_properties.hh. The value types are a closed
    enumeration (spec 9). *)
Definition floating_types : list value_type := [t_double; t_long_double].

(** Modelled from the spec: the scalar value types, integer and floating;
    missing are the type lists of graph_properties.hh. *)
Definition scalar_types : list value_type :=
  [t_bool; t_int32_t; t_int64_t; t_double; t_long_double].

Definition properties (k : key_kind) (ts : list value_type)
  : list (key_kind * value_type) := map (pair k) ts.

Definition edge_floating_properties := properties edge_key floating_types.
Definition vertex_floating_properties := properties vertex_key floating_types.
Definition vertex_scalar_properties := properties vertex_key scalar_types.

(** Modelled from the spec: [belongs<Types>()(a)], whether [a] holds a map of
    one of the listed types; missing is its definition in
    graph_filtering.hh. *)
Definition belongs (types : list (key_kind * value_type)) (a : any) : bool :=
  match a with
  | any_property p => bool_decide ((pm_kind p, pm_type p) ∈ types)
  | _ => false
  end.

(** [boost::any_cast<Map>(a)] for the map type of [like]: it succeeds only
    when [a] holds exactly that type, and throws [bad_any_cast] otherwise
    (here: no result). *)
Definition any_cast (like : property_map) (a : any) : option property_map :=
  match a with
  | any_property p =>
      if bool_decide (pm_kind p = pm_kind like /\ pm_type p = pm_type like)
      then Some p else None
  | _ => None
  end.

(** Storage of the property maps. Floating-valued maps, of either floating
    value type, hold values of the scalar type [F]; integer-valued maps hold
    integers. A slot that was never written reads as zero (the storage
    grows with default-constructed values). *)
Record property_store (F : Type) := Store {
  floating_store : gmap nat (gmap nat F);
  integer_store : gmap nat (gmap nat Z)
}.
Arguments Store {F} _ _.
Arguments floating_store {F} _.
Arguments integer_store {F} _.

Section Values.
Context {F : Type} `{Scalar F}.

(** [get(map, key)] and [put(map, key, value)] on a floating-valued map:
    they read and write the storage the handle points to. *)
Definition get (st : property_store F) (p : property_map) (i : nat) : F :=
  default s_zero (default ∅ (floating_store st !! pm_storage p) !! i).

Definition put (st : property_store F) (p : property_map) (i : nat) (x : F)
  : property_store F :=
  Store (<[pm_storage p :=
            <[i := x]> (default ∅ (floating_store st !! pm_storage p))]>
           (floating_store st))
        (integer_store st).

(** [get(map, key)] on an integer-valued map. *)
Definition get_integer (st : property_store F) (p : property_map) (i : nat) : Z :=
  default 0 (default ∅ (integer_store st !! pm_storage p) !! i).

(** ** normalize_betweenness (graph_betweenness.cc, lines 33-64) *)

(** Lines 39-46: the two factors, computed from the [size_t] count [n] and
    doubled on an undirected graph. *)
Definition vfactor (undirected : bool) (n : Z) : F :=
  let vfactor :=
    if 2 <? n
    then s_div s_one
           (s_of_Z (size_t_wrap (size_t_wrap (n - 1) * size_t_wrap (n - 2))))
    else s_one in
  if undirected then s_mul vfactor (s_of_Z 2) else vfactor.

Definition efactor (undirected : bool) (n : Z) : F :=
  let efactor :=
    if 1 <? n
    then s_div s_one (s_of_Z (size_t_wrap (n * size_t_wrap (n - 1))))
    else s_one in
  if undirected then s_mul efactor (s_of_Z 2) else efactor.

(** The vertex loop runs an [int] counter up to [N = num_vertices(g)]. *)
Definition vertex_loop_range (g : Graph) : list nat :=
  seq 0 (Z.to_nat (int_wrap (Z.of_nat (num_vertices g)))).

(** Lines 51-57 and 60-63: the bodies of the two loops. *)
Definition scale_vertex (g : Graph) (vertex_betweenness : property_map) (c : F)
    (st : property_store F) (i : nat) : property_store F :=
  if vertex_ok g i
  then put st vertex_betweenness i (s_mul c (get st vertex_betweenness i))
  else st.

Definition scale_edge (edge_betweenness : property_map) (c : F)
    (st : property_store F) (e : edge_descriptor) : property_store F :=
  put st edge_betweenness (edge_index e)
      (s_mul c (get st edge_betweenness (edge_index e))).

Definition normalize_betweenness (g : Graph)
    (edge_betweenness vertex_betweenness : property_map) (n : Z)
    (st : property_store F) : property_store F :=
  let vf := vfactor (is_undirected g) n in
  let ef := efactor (is_undirected g) n in
  let st1 := fold_left (scale_vertex g vertex_betweenness vf)
                       (vertex_loop_range g) st in
  fold_left (scale_edge edge_betweenness ef) (edges g) st1.

End Values.

(** ** Brandes' algorithm

    [brandes_betweenness_centrality] is called at lines 82 and 112 of
    graph_betweenness.cc; its definition is missing from the verified
    sources and is modelled from sections 4.1 to 4.3 and 8 of the spec. The
    types of its working maps are fixed by the callers: path counts are
    [size_t], distances are [size_t] without weights and of the edge map's
    value type with weights, dependencies are of the vertex map's value
    type. *)

Section Brandes.
Context {F : Type} `{Scalar F}.

(** Working maps of one source, with distances in [D]. [ordered_vertices]
    lists the visited vertices, the last visited first. *)
Record sp_state (D : Type) := SP {
  distance_map : gmap nat D;
  path_count_map : gmap nat Z;
  incoming_map : gmap nat (list edge_descriptor);
  ordered_vertices : list nat
}.
Arguments SP {D} _ _ _ _.
Arguments distance_map {D} _.
Arguments path_count_map {D} _.
Arguments incoming_map {D} _.
Arguments ordered_vertices {D} _.

Definition path_count {D} (sp : sp_state D) (v : nat) : Z :=
  default 0 (path_count_map sp !! v).

Definition incoming {D} (sp : sp_state D) (v : nat) : list edge_descriptor :=
  default [] (incoming_map sp !! v).

Definition sp_init {D} (zero : D) (s : nat) : sp_state D :=
  SP {[ s := zero ]} {[ s := 1 ]} ∅ [].

Definition discover {D} (sp : sp_state D) (v : nat) (d : D) : sp_state D :=
  SP (<[v := d]> (distance_map sp))
     (<[v := 0]> (path_count_map sp))
     (<[v := []]> (incoming_map sp))
     (ordered_vertices sp).

(** Modelled from the spec: the edge [e], out of [u], lies on a shortest
    path to its target (spec 4.1): it joins the predecessor edges of the
    target, whose path count grows by the path count of [u]. Missing is
    the visitor of [brandes_betweenness_centrality]. *)
Definition add_incoming {D} (sp : sp_state D) (u : nat) (e : edge_descriptor)
  : sp_state D :=
  let v := target e in
  SP (distance_map sp)
     (<[v := size_t_wrap (path_count sp v + path_count sp u)]> (path_count_map sp))
     (<[v := incoming sp v ++ [e]]> (incoming_map sp))
     (ordered_vertices sp).

Definition visit {D} (sp : sp_state D) (u : nat) : sp_state D :=
  SP (distance_map sp) (path_count_map sp) (incoming_map sp)
     (u :: ordered_vertices sp).

(** Modelled from the spec: relaxation of the edge [e] out of [u] in the
    breadth-first traversal (spec 4.1, unweighted mode); missing is the
    traversal inside [brandes_betweenness_centrality]. *)
Definition relax_unweighted (u : nat) (acc : sp_state Z * list nat)
    (e : edge_descriptor) : sp_state Z * list nat :=
  let '(sp, queue) := acc in
  let v := target e in
  let d := size_t_wrap (default 0 (distance_map sp !! u) + 1) in
  match distance_map sp !! v with
  | None => (add_incoming (discover sp v d) u e, queue ++ [v])
  | Some dv => if dv =? d then (add_incoming sp u e, queue) else (sp, queue)
  end.

(** Modelled from the spec: the breadth-first traversal (spec 4.1); missing
    is the traversal inside [brandes_betweenness_centrality]. The result
    carries the queue that is left, empty unless [fuel] ran out. *)
Fixpoint bfs_loop (g : Graph) (fuel : nat) (queue : list nat) (sp : sp_state Z)
  : sp_state Z * list nat :=
  match fuel, queue with
  | S fuel', u :: rest =>
      let '(sp', queue') :=
        fold_left (relax_unweighted u) (out_edges g u) (visit sp u, rest) in
      bfs_loop g fuel' queue' sp'
  | _, _ => (sp, queue)
  end.

(** Every vertex enters the queue once, as the source or as the target of
    an edge; this many rounds empty the queue. *)
Definition traversal_fuel (g : Graph) : nat :=
  S (length (edges g) + length (edges g)).

Definition unweighted_shortest_paths (g : Graph) (s : nat) : sp_state Z :=
  fst (bfs_loop g (traversal_fuel g) [s] (sp_init 0 s)).

(** Modelled from the spec: relaxation in the priority-queue traversal
    (spec 4.1, weighted mode); missing is the traversal inside
    [brandes_betweenness_centrality]. The same rule, comparing
    [dist(u) + w(u,v)] against [dist(v)] with exact equality; a strictly
    shorter path to a vertex already reached restarts its path count and
    predecessors. *)
Definition relax_weighted (weight : nat -> F) (u : nat)
    (acc : sp_state F * list nat) (e : edge_descriptor)
  : sp_state F * list nat :=
  let '(sp, queue) := acc in
  let v := target e in
  let d := s_add (default s_zero (distance_map sp !! u)) (weight (edge_index e)) in
  match distance_map sp !! v with
  | None => (add_incoming (discover sp v d) u e, queue ++ [v])
  | Some dv =>
      if s_ltb d dv then (add_incoming (discover sp v d) u e, queue)
      else if s_eqb dv d then (add_incoming sp u e, queue)
      else (sp, queue)
  end.

Definition closer (sp : sp_state F) (a b : nat) : nat :=
  if s_ltb (default s_zero (distance_map sp !! b))
           (default s_zero (distance_map sp !! a))
  then b else a.

Fixpoint remove_first (u : nat) (l : list nat) : list nat :=
  match l with
  | [] => []
  | x :: l' => if Nat.eqb x u then l' else x :: remove_first u l'
  end.

(** Modelled from the spec: the priority queue (spec 4.1) hands out the
    queued vertex of least distance; among equals, the earliest queued (the
    spec leaves the choice open and asks for a consistent one). Missing is
    the queue of the library's traversal. *)
Definition pop_min (sp : sp_state F) (queue : list nat) : option (nat * list nat) :=
  match queue with
  | [] => None
  | x :: rest =>
      let u := fold_left (closer sp) rest x in
      Some (u, remove_first u queue)
  end.

(** Modelled from the spec: the priority-queue (Dijkstra) traversal
    (spec 4.1); missing is the traversal inside
    [brandes_betweenness_centrality]. *)
Fixpoint dijkstra_loop (g : Graph) (weight : nat -> F) (fuel : nat)
    (queue : list nat) (sp : sp_state F) : sp_state F * list nat :=
  match fuel with
  | S fuel' =>
      match pop_min sp queue with
      | Some (u, rest) =>
          let '(sp', queue') :=
            fold_left (relax_weighted weight u) (out_edges g u) (visit sp u, rest) in
          dijkstra_loop g weight fuel' queue' sp'
      | None => (sp, queue)
      end
  | O => (sp, queue)
  end.

Definition weighted_shortest_paths (g : Graph) (weight : nat -> F) (s : nat)
  : sp_state F :=
  fst (dijkstra_loop g weight (traversal_fuel g) [s] (sp_init s_zero s)).

(** State of the backward pass of one source: the dependencies, the
    property storage holding the two centrality maps, and the divisors of
    the divisions carried out so far (a record of the run; nothing reads
    it). *)
Record acc_state := Acc {
  dependency_map : gmap nat F;
  centrality : property_store F;
  divisors : list Z
}.

Definition dependency (acc : acc_state) (v : nat) : F :=
  default s_zero (dependency_map acc !! v).

(** Modelled from the spec: step 1 of the back-propagation (spec 4.2) for
    one predecessor edge [e = (v, w)]; missing is the backward pass inside
    [brandes_betweenness_centrality]. *)
Definition back_edge {D} (sp : sp_state D) (edge_betweenness : property_map)
    (w : nat) (acc : acc_state) (e : edge_descriptor) : acc_state :=
  let v := source e in
  let ratio := s_div (s_of_Z (path_count sp v)) (s_of_Z (path_count sp w)) in
  let c := s_mul ratio (s_add s_one (dependency acc w)) in
  Acc (<[v := s_add (dependency acc v) c]> (dependency_map acc))
      (put (centrality acc) edge_betweenness (edge_index e)
           (s_add (get (centrality acc) edge_betweenness (edge_index e)) c))
      (path_count sp w :: divisors acc).

(** Modelled from the spec: the back-propagation at vertex [w] (spec 4.2);
    missing is the backward pass inside [brandes_betweenness_centrality].
    The vertex is skipped when [sigma(w) == 0]; otherwise step 1 for every
    predecessor edge, then step 2. *)
Definition back_vertex {D} (sp : sp_state D)
    (edge_betweenness vertex_betweenness : property_map) (s : nat)
    (acc : acc_state) (w : nat) : acc_state :=
  if path_count sp w =? 0 then acc
  else
    let acc' := fold_left (back_edge sp edge_betweenness w) (incoming sp w) acc in
    if Nat.eqb w s then acc'
    else
      Acc (dependency_map acc')
          (put (centrality acc') vertex_betweenness w
               (s_add (get (centrality acc') vertex_betweenness w)
                      (dependency acc' w)))
          (divisors acc').

(** Modelled from the spec: the order of the backward pass (spec 4.2), which
    sees every vertex once, in decreasing distance: first the vertices that
    were not reached, then the visited ones, the last visited first.
    Missing is the backward pass inside [brandes_betweenness_centrality]. *)
Definition backward_order {D} (g : Graph) (sp : sp_state D) : list nat :=
  List.filter (fun v => negb (bool_decide (is_Some (distance_map sp !! v))))
              (vertices g)
  ++ ordered_vertices sp.

Definition back_propagation {D} (g : Graph) (sp : sp_state D)
    (edge_betweenness vertex_betweenness : property_map) (s : nat)
    (acc : acc_state) : acc_state :=
  fold_left (back_vertex sp edge_betweenness vertex_betweenness s)
            (backward_order g sp) acc.

(** Modelled from the spec: one source (spec 4.1 and 4.2), the forward
    traversal, then the back-propagation into the shared centrality maps,
    starting from dependencies that are all zero. Weights are read from the
    storage as it is when the traversal of this source runs. Missing is the
    source loop of [brandes_betweenness_centrality]. *)
Definition brandes_source (g : Graph) (weight : option property_map)
    (edge_betweenness vertex_betweenness : property_map)
    (run : property_store F * list Z) (s : nat) : property_store F * list Z :=
  let '(st, log) := run in
  let start := Acc ∅ st log in
  let acc :=
    match weight with
    | None =>
        back_propagation g (unweighted_shortest_paths g s)
                         edge_betweenness vertex_betweenness s start
    | Some wm =>
        back_propagation g (weighted_shortest_paths g (get st wm) s)
                         edge_betweenness vertex_betweenness s start
    end in
  (centrality acc, divisors acc).

Definition halve_vertex (vertex_betweenness : property_map)
    (st : property_store F) (v : nat) : property_store F :=
  put st vertex_betweenness v (s_div (get st vertex_betweenness v) (s_of_Z 2)).

Definition halve_edge (edge_betweenness : property_map)
    (st : property_store F) (e : edge_descriptor) : property_store F :=
  put st edge_betweenness (edge_index e)
      (s_div (get st edge_betweenness (edge_index e)) (s_of_Z 2)).

(** Modelled from the spec: on an undirected graph every pair of vertices
    is met from both ends, and the sums over all sources are halved so that
    a pair counts once, as spec 8 fixes it (the centre of a star with [k]
    leaves scores [k*(k-1)/2]; sections 4.2 and 4.3 do not spell the halving
    out). Missing is the end of [brandes_betweenness_centrality]. *)
Definition divide_centrality_by_two (g : Graph)
    (edge_betweenness vertex_betweenness : property_map)
    (st : property_store F) : property_store F :=
  fold_left (halve_edge edge_betweenness) (edges g)
            (fold_left (halve_vertex vertex_betweenness) (vertices g) st).

(** Modelled from the spec: Brandes' algorithm (spec 4.1 to 4.3), the sum
    over all sources of the contributions of 4.2, added to the caller's
    maps; missing is [brandes_betweenness_centrality]. The second component
    is the record of divisors. *)
Definition brandes_run (g : Graph) (weight : option property_map)
    (edge_betweenness vertex_betweenness : property_map)
    (st : property_store F) : property_store F * list Z :=
  let '(st', log) :=
    fold_left (brandes_source g weight edge_betweenness vertex_betweenness)
              (vertices g) (st, []) in
  (if is_undirected g
   then divide_centrality_by_two g edge_betweenness vertex_betweenness st'
   else st',
   log).

(** Modelled from the spec: [brandes_betweenness_centrality] as its callers
    see it, the storage after the run. *)
Definition brandes_betweenness_centrality (g : Graph)
    (weight : option property_map)
    (edge_betweenness vertex_betweenness : property_map)
    (st : property_store F) : property_store F :=
  fst (brandes_run g weight edge_betweenness vertex_betweenness st).

End Brandes.

Arguments SP {D} _ _ _ _.
Arguments distance_map {D} _.
Arguments path_count_map {D} _.
Arguments incoming_map {D} _.
Arguments ordered_vertices {D} _.
Arguments acc_state F : clear implicits.
Arguments Acc {F} _ _ _.
Arguments dependency_map {F} _.
Arguments centrality {F} _.
Arguments divisors {F} _.

(** ** Central point dominance *)

Section Dominance.
Context {V : Type} `{Scalar V}.

(** Modelled from the spec: [c*], the largest value of the map over the
    vertices (spec 4.5); missing is [central_point_dominance]. *)
Definition maximum (c : nat -> V) (vs : list nat) : V :=
  match vs with
  | [] => s_zero
  | v0 :: rest =>
      fold_left (fun m v => if s_ltb m (c v) then c v else m) rest (c v0)
  end.

(** Modelled from the spec: the sum over the vertices of [c* - c(v)]
    (spec 4.5); missing is [central_point_dominance]. *)
Definition sum_of_gaps (c : nat -> V) (cmax : V) (vs : list nat) : V :=
  fold_left (fun acc v => s_add acc (s_sub cmax (c v))) vs s_zero.

(** Modelled from the spec: [central_point_dominance], called at line 164
    of graph_betweenness.cc; its definition is missing from the verified
    sources (spec 4.5): with [c*] the largest vertex value, the sum over the
    vertices of [c* - c(v)] divided by [n - 1], and [0] when [n <= 1]. *)
Definition central_point_dominance (g : Graph) (c : nat -> V) : V :=
  let n := Z.of_nat (length (vertices g)) in
  if n <=? 1 then s_zero
  else s_div (sum_of_gaps c (maximum c (vertices g)) (vertices g))
             (s_of_Z (n - 1)).

End Dominance.

(** ** The entry points *)

(** The exceptions of the entry points: [GraphException] with its message
    (lines 130 and 133), [boost::bad_any_cast] (the cast of line 118), and
    the failure of a dispatch to find an action. *)
Inductive exn :=
| GraphException (what : string)
| bad_any_cast
| ActionNotFound.

(** What the entry points act on: the graph interface and the storage of
    the property maps. *)
Record world (F : Type) := World {
  the_graph : GraphInterface;
  the_props : property_store F
}.
Arguments World {F} _ _.
Arguments the_graph {F} _.
Arguments the_props {F} _.

(** Computations that read and write the world and may throw. A throw keeps
    the world as it is at that point. *)
Definition M (F A : Type) : Type := world F -> (exn + A) * world F.

Definition ret {F A} (a : A) : M F A := fun w => (inr a, w).

Definition bind {F A B} (m : M F A) (k : A -> M F B) : M F B :=
  fun w =>
    match m w with
    | (inl e, w') => (inl e, w')
    | (inr a, w') => k a w'
    end.

Definition throw {F A} (e : exn) : M F A := fun w => (inl e, w).

Definition get_world {F} : M F (world F) := fun w => (inr w, w).

Definition modify_props {F} (f : property_store F -> property_store F)
  : M F unit :=
  fun w => (inr tt, World (the_graph w) (f (the_props w))).

Declare Scope action_scope.
Delimit Scope action_scope with action.
Notation "x <- m ;; k" := (bind m (fun x => k))
  (at level 100, m at next level, right associativity) : action_scope.
Notation "m ;;; k" := (bind m (fun _ => k))
  (at level 100, right associativity) : action_scope.

Section EntryPoints.
Context {F : Type} `{Scalar F}.
Local Open Scope action_scope.

(** Modelled from the spec: [run_action] with one dispatched argument;
    missing is graph_filtering.hh. The dispatch resolves the graph view and
    the held property map type among the listed ones and calls the action
    instantiated for them (spec 9); when nothing matches no action runs and
    the dispatch throws. *)
Definition run_action1 {A} (admit_reversed : bool)
    (action : Graph -> property_map -> M F A)
    (types : list (key_kind * value_type)) (a : any) : M F A :=
  w <- get_world ;;
  match a with
  | any_property p =>
      if belongs types a
      then action (GetGraphView admit_reversed (the_graph w)) p
      else throw ActionNotFound
  | _ => throw ActionNotFound
  end.

(** Modelled from the spec: [run_action] with two dispatched arguments;
    missing is graph_filtering.hh. *)
Definition run_action2 (admit_reversed : bool)
    (action : Graph -> property_map -> property_map -> M F unit)
    (types1 types2 : list (key_kind * value_type)) (a1 a2 : any) : M F unit :=
  w <- get_world ;;
  match a1, a2 with
  | any_property p1, any_property p2 =>
      if belongs types1 a1 && belongs types2 a2
      then action (GetGraphView admit_reversed (the_graph w)) p1 p2
      else throw ActionNotFound
  | _, _ => throw ActionNotFound
  end.

(** [get_betweenness::operator()] (lines 66-92). *)
Definition get_betweenness (gp : Graph)
    (edge_betweenness vertex_betweenness : property_map)
    (normalize : bool) (n : Z) : M F unit :=
  modify_props (brandes_betweenness_centrality gp None
                  edge_betweenness vertex_betweenness) ;;;
  if normalize
  then modify_props (normalize_betweenness gp edge_betweenness
                       vertex_betweenness n)
  else ret tt.

(** [get_weighted_betweenness::operator()] (lines 94-122): the weight map
    is cast to the type of the edge betweenness map. *)
Definition get_weighted_betweenness (gp : Graph)
    (edge_betweenness vertex_betweenness : property_map)
    (weight_map : any) (normalize : bool) (n : Z) : M F unit :=
  match any_cast edge_betweenness weight_map with
  | None => throw bad_any_cast
  | Some weights =>
      modify_props (brandes_betweenness_centrality gp (Some weights)
                      edge_betweenness vertex_betweenness) ;;;
      if normalize
      then modify_props (normalize_betweenness gp edge_betweenness
                           vertex_betweenness n)
      else ret tt
  end.

Definition any_is_empty (a : any) : bool :=
  match a with any_empty => true | _ => false end.

(** [betweenness] (lines 124-156). *)
Definition betweenness (weight edge_betweenness vertex_betweenness : any)
    (normalize : bool) : M F unit :=
  if negb (belongs edge_floating_properties edge_betweenness)
  then throw (GraphException
                "edge property must be of floating point value type")
  else if negb (belongs vertex_floating_properties vertex_betweenness)
  then throw (GraphException
                "vertex property must be of floating point value type")
  else
    w <- get_world ;;
    if negb (any_is_empty weight)
    then
      run_action2 true
        (fun gp eb vb =>
           get_weighted_betweenness gp eb vb weight normalize
             (GetNumberOfVertices (the_graph w)))
        edge_floating_properties vertex_floating_properties
        edge_betweenness vertex_betweenness
    else
      run_action2 true
        (fun gp eb vb =>
           get_betweenness gp eb vb normalize
             (GetNumberOfVertices (the_graph w)))
        edge_floating_properties vertex_floating_properties
        edge_betweenness vertex_betweenness.

(** [get_central_point_dominance::operator()] (lines 158-166): writes
    [c], the caller's [double], with the value computed in the value type
    of the map. The result is the new content of [c]. *)
Definition get_central_point_dominance (g : Graph)
    (vertex_betweenness : property_map) (c : F) : M F F :=
  w <- get_world ;;
  if bool_decide (pm_type vertex_betweenness ∈ floating_types)
  then ret (central_point_dominance g (get (the_props w) vertex_betweenness))
  else ret (s_of_Z (central_point_dominance g
                      (get_integer (the_props w) vertex_betweenness))).

(** [central_point] (lines 168-177): [c] starts at [0.0] and is written by
    the dispatched action. *)
Definition central_point (vertex_betweenness : any) : M F F :=
  let c := s_zero in
  c <- run_action1 false
         (fun g vb => get_central_point_dominance g vb c)
         vertex_scalar_properties vertex_betweenness ;;
  ret c.

End EntryPoints.

(** ** Auxiliary definitions for the proofs *)

Section Auxiliary.
Context {F : Type} `{Scalar F}.

(** The shape shared by the two loops of [normalize_betweenness]: rescale
    the slots [key x] of the map [p], for the [x] of a list that pass
    [ok]. *)
Definition scale_loop {A} (key : A -> nat) (ok : A -> bool) (p : property_map)
    (c : F) (xs : list A) (st : property_store F) : property_store F :=
  fold_left (fun st x =>
               if ok x then put st p (key x) (s_mul c (get st p (key x))) else st)
            xs st.

End Auxiliary.

(** The vertices an edge can lead to, and the work a traversal has left:
    the queued vertices and the endpoints not reached yet. *)
Definition endpoints (g : Graph) : gset nat :=
  list_to_set (map target (edges g) ++ map source (edges g)).

Definition pending {D} (g : Graph) (queue : list nat) (sp : sp_state D) : nat :=
  length queue + size (endpoints g ∖ dom (distance_map sp)).


Definition counts_exactly (F : Type) `{Scalar F} (K : Z) : Prop :=
  s_zero = s_of_Z 0 /\
  (forall a, 0 <= a < K -> s_add (s_of_Z a) s_one = s_of_Z (a + 1)) /\
  (forall a b, 0 <= a <= K -> 0 <= b <= K ->
     s_ltb (s_of_Z a) (s_of_Z b) = (a <? b) /\
     s_eqb (s_of_Z a) (s_of_Z b) = (a =? b)).







(** Invariants of a run: path counts are never negative, whatever they wrap
    to, and a property [good] of values holds of every dependency and of
    every value of the two centrality maps. *)
Definition counts_nonneg {D} (sp : sp_state D) : Prop :=
  forall v, 0 <= path_count sp v.

Definition all_values {F : Type} `{Scalar F} (good : F -> Prop)
    (st : property_store F) (p : property_map) : Prop :=
  forall i, good (get st p i).

Definition all_of_acc {F : Type} `{Scalar F} (good : F -> Prop)
    (pe pv : property_map) (acc : acc_state F) : Prop :=
  (forall v, good (dependency acc v)) /\
  all_values good (centrality acc) pe /\ all_values good (centrality acc) pv.

(** A binary64 number that is not negative: its sign bit is clear, or it is
    not a number. *)
Definition sign_clear_or_nan (s : spec_float) : bool :=
  match s with
  | S754_nan => true
  | S754_zero b | S754_infinity b | S754_finite b _ _ => negb b
  end.

Definition never_negative (x : float) : Prop :=
  sign_clear_or_nan (Prim2SF x) = true.

Definition not_a_number (x : float) : Prop := Prim2SF x = S754_nan.



(** Only vertices that were reached have a path count. *)
Definition counted_within_reach {D} (sp : sp_state D) : Prop :=
  forall v, distance_map sp !! v = None -> path_count sp v = 0.

(** No recorded division has a zero divisor. *)
Definition nonzero_divisors (log : list Z) : Prop := Forall (fun d => d <> 0) log.

(** ** A worked example: the star with four leaves

    Vertex 0 is the centre; the graph is undirected and unfiltered. The
    edge map lives in storage 0, the vertex map in storage 1, both of value
    type [double] and zero everywhere. *)

Definition star : GraphInterface :=
  {| gi_num_vertices := 5;
     gi_edges := [Edge 0 1 0; Edge 0 2 1; Edge 0 3 2; Edge 0 4 3];
     gi_directed := false;
     gi_reversed := false;
     gi_vertex_filter := fun _ => true |}.

Definition star_edge_map : property_map := PMap edge_key t_double 0.
Definition star_vertex_map : property_map := PMap vertex_key t_double 1.

Definition star_world : world float := World star (Store ∅ ∅).



Definition star_raw : (exn + unit) * world float :=
  betweenness any_empty (any_property star_edge_map)
              (any_property star_vertex_map) false star_world.

Definition star_normalized : (exn + unit) * world float :=
  betweenness any_empty (any_property star_edge_map)
              (any_property star_vertex_map) true star_world.

(** ** Further examples *)

(** A graph view with [2^31] vertices and no edge: its vertex count does not
    fit the [int] counter of the vertex loop. *)
Definition wide_graph : Graph :=
  {| num_vertices := Z.to_nat (2 ^ 31);
     vertex_ok := fun _ => true;
     edges := [];
     is_undirected := false |}.

(** A directed triangle whose three edges carry the same edge index. *)
Definition shared_index_graph : Graph :=
  {| num_vertices := 3;
     vertex_ok := fun v => negb (Nat.eqb v 2);
     edges := [Edge 0 1 7; Edge 1 2 7; Edge 2 0 7];
     is_undirected := false |}.
(** [k] parallel edges from [u] to [v], with the edge indices from [first]
    on, and a chain of [len] such bundles from the vertex [from] on. *)
Definition parallel (k u v first : nat) : list edge_descriptor :=
  map (fun j => Edge u v (first + j)) (seq 0 k).

Definition chain (k len from first : nat) : list edge_descriptor :=
  flat_map (fun i => parallel k (from + i) (from + i + 1) (first + k * i))
           (seq 0 len).

(** A directed graph on which a path count wraps around to zero and a
    dependency overflows. From vertex 0 two chains of 32 steps lead to
    vertex 65: one of four parallel edges a step, through the vertices 1 to
    32, on which the path count [4^32 = 2^64] of vertex 32 wraps to zero, and
    one of single edges, through the vertices 33 to 64, so that vertex 65
    has the path count one. From vertex 65 a chain of 350 steps of nine
    parallel edges goes on: there are more than [2^1024] shortest paths
    through vertex 65. The edge from vertex 32 to vertex 65 has the index
    160. *)
Definition overflow_graph : GraphInterface :=
  {| gi_num_vertices := 416;
     gi_edges :=
       chain 4 32 0 0
       ++ [Edge 0 33 128]
       ++ chain 1 31 33 129
       ++ [Edge 32 65 160; Edge 64 65 161]
       ++ chain 9 350 65 162;
     gi_directed := true;
     gi_reversed := false;
     gi_vertex_filter := fun _ => true |}.

Definition overflow_world : world float := World overflow_graph (Store ∅ ∅).


(** ** Sentinel keys of the hash containers (hash_map_wrap.hh)

    The containers of hash_map_wrap.hh are [std::unordered_set] and
    [std::unordered_map], or Google's dense hash containers when the build
    has them ([HAVE_SPARSEHASH]). The dense containers need two keys that
    are never stored, the empty key and the deleted key; [empty_key<Key>]
    and [deleted_key<Key>] make them up from the key type. *)

(** The arithmetic types ([std::is_arithmetic]): [bool], the integer types
    by signedness and width, and the binary floating types by precision and
    largest exponent ([float] is [a_floating 24 127], [double] is
    [a_floating 53 1023]). *)
Inductive arithmetic :=
| a_bool
| a_integer (signed : bool) (bits : positive)
| a_floating (precision emax : Z).

(** Key types: arithmetic types, other types that have no specialisation
    (such as [std::string]), and the three type constructors that have one.
    [k_tuple []] is [std::tuple<>]. *)
#[warnings="-register-all"] Inductive key_type :=
| k_arithmetic (a : arithmetic)
| k_class (name : string)
| k_vector (Key : key_type)
| k_pair (Val1 Val2 : key_type)
| k_tuple (Vals : list key_type).

(** Key values; [v_integer] also holds [bool] (as 0 and 1), and
    [v_floating m e] is the floating point number [m * 2^e]. *)
#[warnings="-register-all"] Inductive key_value :=
| v_integer (z : Z)
| v_floating (m e : Z)
| v_vector (elements : list key_value)
| v_pair (first second : key_value)
| v_tuple (elements : list key_value).

(** Lines 34-35 and 87-88: the two exceptions, by the key type they are
    instantiated with. *)
Inductive key_exn :=
| no_empty_key (Key : key_type)
| no_deleted_key (Key : key_type).

(** [std::numeric_limits<Key>] of the arithmetic types: [is_integer],
    [max()], and [min()], which for a floating type is the smallest positive
    normal number. *)
Definition is_integer (a : arithmetic) : bool :=
  match a with a_floating _ _ => false | _ => true end.

Definition numeric_max (a : arithmetic) : key_value :=
  match a with
  | a_bool => v_integer 1
  | a_integer signed bits =>
      v_integer (2 ^ (Z.pos bits - (if signed then 1 else 0)) - 1)
  | a_floating precision emax =>
      v_floating (2 ^ precision - 1) (emax - precision + 1)
  end.

Definition numeric_min (a : arithmetic) : key_value :=
  match a with
  | a_bool => v_integer 0
  | a_integer signed bits =>
      v_integer (if signed then - 2 ^ (Z.pos bits - 1) else 0)
  | a_floating precision emax => v_floating 1 (1 - emax)
  end.

(** The conversion of an integer result to the arithmetic type the function
    returns: to [bool] by comparison with zero, to an integer type by
    wrap-around. *)
Definition convert (a : arithmetic) (z : Z) : Z :=
  match a with
  | a_bool => if Z.eqb z 0 then 0 else 1
  | a_integer false bits => z mod 2 ^ Z.pos bits
  | a_integer true bits =>
      (z + 2 ^ (Z.pos bits - 1)) mod 2 ^ Z.pos bits - 2 ^ (Z.pos bits - 1)
  | a_floating _ _ => z
  end.

(** [max() - 1] (line 101), converted to the type returned. *)
Definition minus_one (a : arithmetic) (v : key_value) : key_value :=
  match v with
  | v_integer z => v_integer (convert a (z - 1))
  | _ => v
  end.

Section SentinelKeys.

(** The two arguments of [std::make_pair] (lines 70-71, 126-127) are
    evaluated in an order the language leaves to the compiler. *)
Variable first_argument_first : bool.

Definition make_pair (first second : key_exn + key_value)
  : key_exn + key_value :=
  if first_argument_first
  then match first with
       | inl e => inl e
       | inr a => match second with
                  | inl e => inl e
                  | inr b => inr (v_pair a b)
                  end
       end
  else match second with
       | inl e => inl e
       | inr b => match first with
                  | inl e => inl e
                  | inr a => inr (v_pair a b)
                  end
       end.

(** [std::tuple_cat] of the one-element tuple [t] and the key of the
    remaining types (lines 81-82, 137-138). *)
Definition tuple_cat (t : key_value) (rest : key_exn + key_value)
  : key_exn + key_value :=
  match rest with
  | inl e => inl e
  | inr (v_tuple vs) => inr (v_tuple (t :: vs))
  | inr v => inr v
  end.

(** [empty_key<Key>::get()] (lines 37-84). The primary template serves the
    arithmetic types and throws for every other type, [std::tuple<>]
    included, which has no specialisation of its own. *)
Fixpoint empty_key (Key : key_type) : key_exn + key_value :=
  match Key with
  | k_arithmetic a => inr (numeric_max a)
  | k_class _ => inl (no_empty_key Key)
  | k_vector Key' =>
      match empty_key Key' with
      | inl e => inl e
      | inr v => inr (v_vector [v])
      end
  | k_pair Val1 Val2 => make_pair (empty_key Val1) (empty_key Val2)
  | k_tuple Vals =>
      (fix tuple_key (Vals : list key_type) : key_exn + key_value :=
         match Vals with
         | [] => inl (no_empty_key (k_tuple []))
         | Val :: Vals' =>
             match empty_key Val with
             | inl e => inl e
             | inr t => tuple_cat t (tuple_key Vals')
             end
         end) Vals
  end.

(** [deleted_key<Key>::get()] (lines 90-140). *)
Fixpoint deleted_key (Key : key_type) : key_exn + key_value :=
  match Key with
  | k_arithmetic a =>
      if is_integer a
      then inr (minus_one a (numeric_max a))
      else inr (numeric_min a)
  | k_class _ => inl (no_deleted_key Key)
  | k_vector Key' =>
      match deleted_key Key' with
      | inl e => inl e
      | inr v => inr (v_vector [v])
      end
  | k_pair Val1 Val2 => make_pair (deleted_key Val1) (deleted_key Val2)
  | k_tuple Vals =>
      (fix tuple_key (Vals : list key_type) : key_exn + key_value :=
         match Vals with
         | [] => inl (no_deleted_key (k_tuple []))
         | Val :: Vals' =>
             match deleted_key Val with
             | inl e => inl e
             | inr t => tuple_cat t (tuple_key Vals')
             end
         end) Vals
  end.

(** What a constructor has set in the container it returns: the empty key
    and the deleted key, if any. *)
Record sentinels := {
  the_empty_key : option key_value;
  the_deleted_key : option key_value
}.

(** The four constructors of each container, in the order of the source:
    from a size, from an allocator alone, from a range, from an initializer
    list. *)
Inductive constructor :=
| from_size | from_allocator | from_range | from_initializer_list.

(** [gt_hash_set] (lines 142-206). With the dense containers the
    constructor from a size sets the two keys in turn; the constructors from
    a range and from an initializer list hand the empty key to the base
    constructor and then set the deleted key; the one from an allocator sets
    none. *)
Definition gt_hash_set (HAVE_SPARSEHASH : bool) (c : constructor)
    (Key : key_type) : key_exn + sentinels :=
  match c with
  | from_allocator =>
      inr {| the_empty_key := None; the_deleted_key := None |}
  | from_size | from_range | from_initializer_list =>
      if HAVE_SPARSEHASH
      then match empty_key Key with
           | inl e => inl e
           | inr empty =>
               match deleted_key Key with
               | inl e => inl e
               | inr deleted =>
                   inr {| the_empty_key := Some empty;
                          the_deleted_key := Some deleted |}
               end
           end
      else inr {| the_empty_key := None; the_deleted_key := None |}
  end.

(** [gt_hash_map] (lines 208-273): the same constructors; the mapped type
    [Value] plays no part in the keys. *)
Definition gt_hash_map (HAVE_SPARSEHASH : bool) (c : constructor)
    (Key Value : key_type) : key_exn + sentinels :=
  match c with
  | from_allocator =>
      inr {| the_empty_key := None; the_deleted_key := None |}
  | from_size | from_range | from_initializer_list =>
      if HAVE_SPARSEHASH
      then match empty_key Key with
           | inl e => inl e
           | inr empty =>
               match deleted_key Key with
               | inl e => inl e
               | inr deleted =>
                   inr {| the_empty_key := Some empty;
                          the_deleted_key := Some deleted |}
               end
           end
      else inr {| the_empty_key := None; the_deleted_key := None |}
  end.

End SentinelKeys.

(** The key types both sentinels exist for: those built from arithmetic
    types with [std::vector] and [std::pair]. *)
Fixpoint sentinel_free (Key : key_type) : bool :=
  match Key with
  | k_arithmetic _ => true
  | k_class _ => false
  | k_vector Key' => sentinel_free Key'
  | k_pair Val1 Val2 => sentinel_free Val1 && sentinel_free Val2
  | k_tuple _ => false
  end.

Definition is_no_empty_key (e : key_exn) : bool :=
  match e with no_empty_key _ => true | no_deleted_key _ => false end.

Definition returns {E A} (r : E + A) : bool :=
  match r with inl _ => false | inr _ => true end.

(** Induction over the key types, with the components of a tuple. *)
Definition key_type_forall_ind (P : key_type -> Prop)
    (Ha : forall a, P (k_arithmetic a))
    (Hc : forall name, P (k_class name))
    (Hv : forall Key, P Key -> P (k_vector Key))
    (Hp : forall Val1 Val2, P Val1 -> P Val2 -> P (k_pair Val1 Val2))
    (Ht : forall Vals, List.Forall P Vals -> P (k_tuple Vals))
  : forall Key, P Key :=
  fix go (Key : key_type) : P Key :=
    match Key with
    | k_arithmetic a => Ha a
    | k_class name => Hc name
    | k_vector Key' => Hv Key' (go Key')
    | k_pair Val1 Val2 => Hp Val1 Val2 (go Val1) (go Val2)
    | k_tuple Vals =>
        Ht Vals
           ((fix all (Vals : list key_type) : List.Forall P Vals :=
               match Vals with
               | [] => @List.Forall_nil _ P
               | Val :: Vals' =>
                   @List.Forall_cons _ P Val Vals' (go Val) (all Vals')
               end) Vals)
    end.

(** ** The entry point of the block model generator (graph_sbm.cc) *)

Section BlockModel.
Context {F : Type}.
Local Open Scope action_scope.

(** What graph_sbm.cc takes from headers that are not among the sources:
    Python objects and the arrays [get_array] reads from them
    (numpy_bind.hh), the random number generator, and the call of lines
    40-41, which dispatches [gen_sbm] (graph_sbm.hh) on the graph view. *)
Variables object array rng_t : Type.
Variable get_array : value_type -> nat -> object -> exn + array.
Variable run_gen_sbm :
  property_map -> array -> array -> array -> property_map -> property_map ->
  rng_t -> M F rng_t.

Definition of_result {A} (r : exn + A) : M F A :=
  match r with
  | inl e => throw e
  | inr a => ret a
  end.

(** [vprop_map_t<T>::type], the vertex property map of value type [T]. *)
Definition vprop_map_t (t : value_type) : property_map :=
  PMap vertex_key t 0.

(** [any_cast<Map>(a).get_unchecked()]: the unchecked map is a handle on the
    storage of the map that [a] holds. *)
Definition cast_unchecked (like : property_map) (a : any) : M F property_map :=
  match any_cast like a with
  | None => throw bad_any_cast
  | Some p => ret p
  end.

(** [generate_sbm] (lines 25-42); [rng] is passed by reference, the result
    is its new state. *)
Definition generate_sbm (ab : any) (ors oss oprobs : object)
    (ain_deg aout_deg : any) (rng : rng_t) : M F rng_t :=
  rs <- of_result (get_array t_int64_t 1 ors) ;;
  ss <- of_result (get_array t_int64_t 1 oss) ;;
  probs <- of_result (get_array t_double 2 oprobs) ;;
  b <- cast_unchecked (vprop_map_t t_int32_t) ab ;;
  in_deg <- cast_unchecked (vprop_map_t t_double) ain_deg ;;
  out_deg <- cast_unchecked (vprop_map_t t_double) aout_deg ;;
  run_gen_sbm b rs ss probs in_deg out_deg rng.

(** The maps the three casts accept. *)
Definition holds_vertex_map (t : value_type) (a : any) : Prop :=
  exists p, a = any_property p /\ pm_kind p = vertex_key /\ pm_type p = t.

End BlockModel.

(** * Properties *)

(** ** Loops *)

(** A property that every round of a loop keeps holds when the loop ends. *)
Lemma fold_left_preserves {S A : Type} (P : S -> Prop) (f : S -> A -> S)
    (l : list A) (s : S) :
  P s -> (forall s x, P s -> P (f s x)) -> P (fold_left f l s).
Proof.
  intros Hs Hf. revert s Hs. induction l as [| x l IH]; intros s Hs.
  - exact Hs.
  - cbn [fold_left]. apply IH, Hf, Hs.
Qed.

(** ** Reading and writing the storage *)

Section StoreFacts.
Context {F : Type} `{Scalar F}.

Lemma get_put_same (st : property_store F) (p q : property_map) (i : nat) (x : F) :
  pm_storage q = pm_storage p -> get (put st p i x) q i = x.
Proof.
  intros E. unfold get, put. cbn. rewrite E.
  rewrite lookup_insert_eq. cbn. rewrite lookup_insert_eq. reflexivity.
Qed.

Lemma get_put_other (st : property_store F) (p q : property_map) (i j : nat) (x : F) :
  pm_storage q <> pm_storage p \/ j <> i ->
  get (put st p i x) q j = get st q j.
Proof.
  intros D. unfold get, put. cbn.
  destruct (decide (pm_storage q = pm_storage p)) as [E | N].
  - rewrite E, lookup_insert_eq. cbn.
    destruct D as [D | D]; [contradiction |].
    rewrite lookup_insert_ne by congruence. reflexivity.
  - rewrite lookup_insert_ne by congruence. reflexivity.
Qed.

Lemma scale_loop_cons {A} (key : A -> nat) ok p c x (xs : list A) st :
  scale_loop key ok p c (x :: xs) st =
  scale_loop key ok p c xs
    (if ok x then put st p (key x) (s_mul c (get st p (key x))) else st).
Proof. reflexivity. Qed.

Lemma scale_loop_other {A} (key : A -> nat) ok p c (xs : list A) st q j :
  pm_storage q <> pm_storage p \/ j ∉ map key xs ->
  get (scale_loop key ok p c xs st) q j = get st q j.
Proof.
  revert st. induction xs as [| x xs IH]; intros st D; [reflexivity |].
  rewrite scale_loop_cons, IH.
  - destruct (ok x); [| reflexivity].
    apply get_put_other. destruct D as [D | D]; [now left | right].
    intros ->. apply D. cbn. left.
  - destruct D as [D | D]; [now left | right].
    intros I. apply D. cbn. now right.
Qed.

Lemma scale_loop_hit {A} (key : A -> nat) ok p c (xs : list A) st x :
  NoDup (map key xs) -> x ∈ xs -> ok x = true ->
  get (scale_loop key ok p c xs st) p (key x) = s_mul c (get st p (key x)).
Proof.
  revert st. induction xs as [| y xs IH]; intros st ND I O.
  - inversion I.
  - cbn in ND. apply NoDup_cons in ND as [Ny ND]. rewrite scale_loop_cons.
    destruct (decide (key y = key x)) as [E | N].
    + rewrite scale_loop_other by (right; rewrite <- E; exact Ny).
      assert (ok y = true) as ->.
      { apply elem_of_cons in I as [-> | I]; [exact O |].
        exfalso. apply Ny. rewrite E. apply list_elem_of_fmap. eauto. }
      rewrite E. now apply get_put_same.
    + apply elem_of_cons in I as [-> | I]; [congruence |].
      rewrite IH by assumption.
      destruct (ok y); [| reflexivity].
      rewrite get_put_other by (right; congruence). reflexivity.
Qed.

Lemma vertex_loop_is_scale_loop g vb c l st :
  fold_left (scale_vertex g vb c) l st = scale_loop (fun i => i) (vertex_ok g) vb c l st.
Proof. reflexivity. Qed.

Lemma edge_loop_is_scale_loop eb c l st :
  fold_left (scale_edge eb c) l st = scale_loop edge_index (fun _ => true) eb c l st.
Proof. reflexivity. Qed.

Lemma int_wrap_small (z : Z) : - 2 ^ 31 <= z < 2 ^ 31 -> int_wrap z = z.
Proof. intros B. unfold int_wrap. rewrite Z.mod_small; lia. Qed.

Lemma size_t_wrap_small (z : Z) : 0 <= z < 2 ^ 64 -> size_t_wrap z = z.
Proof. intros B. unfold size_t_wrap. now apply Z.mod_small. Qed.

Lemma vertex_loop_range_small g :
  Z.of_nat (num_vertices g) < 2 ^ 31 ->
  vertex_loop_range g = seq 0 (num_vertices g).
Proof.
  intros B. unfold vertex_loop_range.
  rewrite int_wrap_small by lia. now rewrite Nat2Z.id.
Qed.

End StoreFacts.

(** ** The traversals empty their queue

    [traversal_fuel] rounds are enough: the loops of the two traversals end
    because the queue is empty, never because the rounds ran out. *)

Section Fuel.
Local Open Scope nat_scope.

Lemma size_list_to_set_le (l : list nat) :
  size (list_to_set l : gset nat) <= length l.
Proof.
  induction l as [| x l IH]; [reflexivity |].
  cbn [list_to_set length]. rewrite size_union_alt, size_singleton.
  assert (size (list_to_set l ∖ {[x]} : gset nat) <= size (list_to_set l : gset nat))
    by (apply subseteq_size, subseteq_difference_l; reflexivity).
  lia.
Qed.

Lemma out_edges_target g u e : e ∈ out_edges g u -> target e ∈ endpoints g.
Proof.
  unfold out_edges, endpoints. rewrite elem_of_app. intros [I | I].
  - apply list_elem_of_In, filter_In in I as [I _].
    apply elem_of_list_to_set, elem_of_app. left.
    apply list_elem_of_fmap. exists e. split; [reflexivity |].
    now apply list_elem_of_In.
  - destruct (is_undirected g); [| inversion I].
    apply list_elem_of_fmap in I as (e' & -> & I).
    apply list_elem_of_In, filter_In in I as [I _].
    apply elem_of_list_to_set, elem_of_app. right.
    apply list_elem_of_fmap. exists e'. split; [reflexivity |].
    now apply list_elem_of_In.
Qed.

Lemma pending_discover {D} g queue (sp : sp_state D) u e d :
  target e ∈ endpoints g ->
  distance_map sp !! target e = None ->
  pending g (queue ++ [target e]) (add_incoming (discover sp (target e) d) u e)
    = pending g queue sp.
Proof.
  intros Hin Hnew. unfold pending. cbn [add_incoming discover distance_map].
  rewrite length_app. cbn [length]. rewrite dom_insert_L.
  assert (target e ∉ dom (distance_map sp)) as Hout
    by now apply not_elem_of_dom.
  assert ({[target e]} ⊆ endpoints g ∖ dom (distance_map sp)) as Hsub
    by (apply singleton_subseteq_l, elem_of_difference; split; assumption).
  replace (endpoints g ∖ ({[target e]} ∪ dom (distance_map sp)))
    with ((endpoints g ∖ dom (distance_map sp)) ∖ {[target e]})
    by (apply set_eq; intros x;
        rewrite !elem_of_difference, elem_of_union, elem_of_singleton; tauto).
  rewrite size_difference by exact Hsub. rewrite size_singleton.
  apply subseteq_size in Hsub. rewrite size_singleton in Hsub. lia.
Qed.

Lemma pending_rediscover {D} g queue (sp : sp_state D) u e d dv :
  distance_map sp !! target e = Some dv ->
  pending g queue (add_incoming (discover sp (target e) d) u e)
    = pending g queue sp.
Proof.
  intros Hold. unfold pending. cbn [add_incoming discover distance_map].
  rewrite dom_insert_lookup_L by eauto. reflexivity.
Qed.

Lemma pending_relax_unweighted g u sp queue e :
  target e ∈ endpoints g ->
  pending g (snd (relax_unweighted u (sp, queue) e))
            (fst (relax_unweighted u (sp, queue) e))
    = pending g queue sp.
Proof.
  intros Hin. unfold relax_unweighted.
  destruct (distance_map sp !! target e) as [dv |] eqn:E.
  - destruct (dv =? _)%Z; reflexivity.
  - cbn [fst snd]. now apply pending_discover.
Qed.

Lemma pending_relax_weighted {F : Type} `{Scalar F} g (weight : nat -> F)
    u sp queue e :
  target e ∈ endpoints g ->
  pending g (snd (relax_weighted weight u (sp, queue) e))
            (fst (relax_weighted weight u (sp, queue) e))
    = pending g queue sp.
Proof.
  intros Hin. unfold relax_weighted.
  destruct (distance_map sp !! target e) as [dv |] eqn:E.
  - destruct (s_ltb _ dv); cbn [fst snd];
      [now apply (pending_rediscover _ _ _ _ _ _ dv) |].
    destruct (s_eqb dv _); reflexivity.
  - cbn [fst snd]. now apply pending_discover.
Qed.

Lemma pending_fold {D} g (relax : sp_state D * list nat -> edge_descriptor ->
                                  sp_state D * list nat) es sp queue :
  (forall sp queue e, target e ∈ endpoints g ->
     pending g (snd (relax (sp, queue) e)) (fst (relax (sp, queue) e))
       = pending g queue sp) ->
  (forall e, e ∈ es -> target e ∈ endpoints g) ->
  pending g (snd (fold_left relax es (sp, queue)))
            (fst (fold_left relax es (sp, queue)))
    = pending g queue sp.
Proof.
  intros Hrelax. revert sp queue.
  induction es as [| e es IH]; intros sp queue Hes; [reflexivity |].
  cbn [fold_left].
  destruct (relax (sp, queue) e) as [sp1 queue1] eqn:E.
  rewrite IH by (intros e' He'; apply Hes; now right).
  specialize (Hrelax sp queue e). rewrite E in Hrelax. apply Hrelax, Hes. left.
Qed.

Lemma bfs_loop_empties_queue g fuel queue sp :
  (pending g queue sp <= fuel)%nat -> snd (bfs_loop g fuel queue sp) = [].
Proof.
  revert queue sp. induction fuel as [| fuel IH]; intros queue sp Hfuel.
  - destruct queue; [reflexivity |]. unfold pending in Hfuel. cbn in Hfuel. lia.
  - cbn [bfs_loop]. destruct queue as [| u rest]; [reflexivity |].
    pose proof (pending_fold g (relax_unweighted u) (out_edges g u)
                  (visit sp u) rest (pending_relax_unweighted g u)
                  (fun e => out_edges_target g u e)) as P.
    destruct (fold_left _ _ _) as [sp' queue']. cbn [fst snd] in P.
    apply IH. rewrite P. unfold pending in *. cbn [length visit distance_map] in *.
    lia.
Qed.

Lemma remove_first_length u queue :
  u ∈ queue -> length queue = S (length (remove_first u queue)).
Proof.
  induction queue as [| x queue IH]; intros I; [inversion I |].
  cbn [remove_first]. destruct (Nat.eqb x u) eqn:E; [reflexivity |].
  apply Nat.eqb_neq in E. apply elem_of_cons in I as [-> | I]; [congruence |].
  cbn [length]. now rewrite <- IH.
Qed.

Lemma pop_min_length {F : Type} `{Scalar F} (sp : sp_state F) queue u rest :
  pop_min sp queue = Some (u, rest) -> length queue = S (length rest).
Proof.
  destruct queue as [| x queue]; [discriminate |].
  intros E.
  assert (pop_min sp (x :: queue) =
          Some (fold_left (closer sp) queue x,
                remove_first (fold_left (closer sp) queue x) (x :: queue)))
    as E' by reflexivity.
  rewrite E in E'. injection E' as -> ->.
  change (length (x :: queue) =
          S (length (remove_first (fold_left (closer sp) queue x) (x :: queue)))).
  apply remove_first_length.
  assert (forall l a, a ∈ x :: queue ->
            (forall b, b ∈ l -> b ∈ x :: queue) ->
            fold_left (closer sp) l a ∈ x :: queue) as G.
  { induction l as [| b l IH]; intros a Ha Hl; [exact Ha |].
    cbn [fold_left]. apply IH.
    - unfold closer. destruct (s_ltb _ _); [apply Hl; left | exact Ha].
    - intros b' Hb'. apply Hl. now right. }
  apply G; [left | intros b Hb; now right].
Qed.

Lemma dijkstra_loop_empties_queue {F : Type} `{Scalar F} g (weight : nat -> F)
    fuel queue sp :
  pending g queue sp <= fuel -> snd (dijkstra_loop g weight fuel queue sp) = [].
Proof.
  revert queue sp. induction fuel as [| fuel IH]; intros queue sp Hfuel.
  - destruct queue; [reflexivity |]. unfold pending in Hfuel. cbn in Hfuel. lia.
  - cbn [dijkstra_loop].
    destruct (pop_min sp queue) as [[u rest] |] eqn:Epop.
    + pose proof (pop_min_length sp queue u rest Epop) as L.
      pose proof (pending_fold g (relax_weighted weight u) (out_edges g u)
                    (visit sp u) rest (pending_relax_weighted g weight u)
                    (fun e => out_edges_target g u e)) as P.
      destruct (fold_left _ _ _) as [sp' queue']. cbn [fst snd] in P.
      apply IH. rewrite P. unfold pending in *. cbn [visit distance_map] in *.
      lia.
    + destruct queue; [reflexivity | discriminate].
Qed.

Lemma pending_init {D} g (zero : D) s :
  pending g [s] (sp_init zero s) <= traversal_fuel g.
Proof.
  unfold pending, traversal_fuel. cbn [length].
  assert (size (endpoints g ∖ dom (distance_map (sp_init zero s)))
          <= size (endpoints g)) by (apply subseteq_size, subseteq_difference_l; reflexivity).
  pose proof (size_list_to_set_le (map target (edges g) ++ map source (edges g)))
    as L.
  rewrite length_app, !length_map in L. fold (endpoints g) in L. lia.
Qed.

(** Both traversals run until their queue is empty. *)
Lemma traversals_complete {F : Type} `{Scalar F} g (weight : nat -> F) s :
  snd (bfs_loop g (traversal_fuel g) [s] (sp_init 0%Z s)) = [] /\
  snd (dijkstra_loop g weight (traversal_fuel g) [s] (sp_init s_zero s)) = [].
Proof.
  split.
  - apply bfs_loop_empties_queue, pending_init.
  - apply dijkstra_loop_empties_queue, pending_init.
Qed.

End Fuel.

(** ** C1: the normalisation pass *)

Lemma float_2_neq_1 : 2%float <> 1%float.
Proof.
  intros E.
  assert (PrimFloat.eqb 2 1 = PrimFloat.eqb 1 1) as A by (rewrite E; reflexivity).
  vm_compute in A. discriminate A.
Qed.

(** C1, the claim as stated fails: on an undirected graph with [n = 2]
    vertices the factor applied to the vertex values is 2, not 1. *)
Lemma vfactor_undirected_two_vertices :
  @vfactor float double_scalar true 2 = 2%float /\
  @vfactor float double_scalar true 2 <> 1%float.
Proof.
  assert (@vfactor float double_scalar true 2 = 2%float) as E
    by (vm_compute; reflexivity).
  split; [exact E | rewrite E; exact float_2_neq_1].
Qed.

(** C1 (amended): on a graph whose vertex count fits the [int] loop counter,
    with distinct edge indices and two distinct maps, the normalisation pass
    multiplies every vertex value by [vfactor] and every edge value by
    [efactor]; [vfactor] is [1/((n-1)*(n-2))] when [n > 2] and [1] otherwise,
    [efactor] is [1/(n*(n-1))] when [n > 1] and [1] otherwise, both doubled
    on an undirected graph; for [n <= 2] the vertex factor is [1] on a
    directed graph and, in [double] arithmetic, [2] on an undirected one. *)
Theorem normalize_betweenness_scales {F : Type} `{Scalar F}
    (g : Graph) (eb vb : property_map) (n : Z) (st : property_store F) :
  Z.of_nat (num_vertices g) < 2 ^ 31 ->
  0 <= n < 2 ^ 31 ->
  pm_storage eb <> pm_storage vb ->
  NoDup (map edge_index (edges g)) ->
  (forall v, v ∈ vertices g ->
     get (normalize_betweenness g eb vb n st) vb v =
     s_mul (vfactor (is_undirected g) n) (get st vb v)) /\
  (forall e, e ∈ edges g ->
     get (normalize_betweenness g eb vb n st) eb (edge_index e) =
     s_mul (efactor (is_undirected g) n) (get st eb (edge_index e))) /\
  (2 < n -> vfactor false n = s_div s_one (s_of_Z ((n - 1) * (n - 2)))) /\
  (n <= 2 -> vfactor false n = s_one) /\
  (1 < n -> efactor false n = s_div s_one (s_of_Z (n * (n - 1)))) /\
  (n <= 1 -> efactor false n = s_one) /\
  vfactor true n = s_mul (vfactor false n) (s_of_Z 2) /\
  efactor true n = s_mul (efactor false n) (s_of_Z 2) /\
  (n <= 2 -> @vfactor float double_scalar false n = 1%float /\
             @vfactor float double_scalar true n = 2%float).
Proof.
  intros HN Hn Hst Hnd.
  assert (forall a b, 0 <= a < 2 ^ 31 -> 0 <= b < 2 ^ 31 ->
            size_t_wrap (size_t_wrap a * size_t_wrap b) = a * b) as W.
  { intros a b Ha Hb.
    assert (0 <= a * b < 2 ^ 31 * 2 ^ 31) as Hab
      by (split; [nia | apply Z.mul_lt_mono_nonneg; lia]).
    change (2 ^ 31 * 2 ^ 31) with (2 ^ 62) in Hab.
    rewrite (size_t_wrap_small a), (size_t_wrap_small b), size_t_wrap_small; lia. }
  split; [| split; [| split; [| split; [| split; [| split; [| split; [| split]]]]]]].
  - intros v Hv. unfold vertices in Hv.
    apply list_elem_of_In, filter_In in Hv as [Hv Hok].
    unfold normalize_betweenness.
    rewrite edge_loop_is_scale_loop, scale_loop_other by (now left).
    rewrite vertex_loop_is_scale_loop, vertex_loop_range_small by exact HN.
    apply (scale_loop_hit (fun i => i)); [| now apply list_elem_of_In | exact Hok].
    rewrite map_id. apply NoDup_ListNoDup, seq_NoDup.
  - intros e He. unfold normalize_betweenness.
    rewrite edge_loop_is_scale_loop, scale_loop_hit by auto.
    rewrite vertex_loop_is_scale_loop, scale_loop_other by (left; congruence).
    reflexivity.
  - intros L. unfold vfactor. apply Z.ltb_lt in L as L'. rewrite L'.
    rewrite W by lia. reflexivity.
  - intros L. unfold vfactor.
    destruct (2 <? n) eqn:E; [apply Z.ltb_lt in E; lia | reflexivity].
  - intros L. unfold efactor. apply Z.ltb_lt in L as L'. rewrite L'.
    rewrite <- (W n (n - 1)) by lia.
    rewrite (size_t_wrap_small n) by lia. reflexivity.
  - intros L. unfold efactor.
    destruct (1 <? n) eqn:E; [apply Z.ltb_lt in E; lia | reflexivity].
  - reflexivity.
  - reflexivity.
  - intros L. assert (n = 0 \/ n = 1 \/ n = 2) as [-> | [-> | ->]] by lia;
      split; vm_compute; reflexivity.
Qed.

(** The amended C1 at the star graph and its five vertices. *)
Lemma normalize_betweenness_scales_witness :
  (forall v, v ∈ vertices (GetGraphView true star) ->
     get (normalize_betweenness (GetGraphView true star) star_edge_map
            star_vertex_map 5 (the_props star_world)) star_vertex_map v =
     s_mul (vfactor true 5) (get (the_props star_world) star_vertex_map v)) /\
  GetNumberOfVertices star = 5.
Proof.
  split.
  - refine (proj1 (normalize_betweenness_scales (GetGraphView true star)
                     star_edge_map star_vertex_map 5 (the_props star_world)
                     _ _ _ _)).
    + vm_compute. reflexivity.
    + lia.
    + vm_compute. discriminate.
    + apply NoDup_ListNoDup. vm_compute. repeat constructor; cbn; lia.
  - vm_compute. reflexivity.
Defined.

(** The divisors of the two factors are never zero, at any [size_t] count:
    a product of two consecutive numbers below [2^64] is not a multiple of
    [2^64]. *)
Lemma consecutive_product_wrap (a : Z) :
  0 < a -> a + 1 < 2 ^ 64 -> size_t_wrap (a * (a + 1)) <> 0.
Proof.
  intros Ha Hb E. unfold size_t_wrap in E.
  apply Z.mod_divide in E; [| lia].
  assert (forall x y, Z.Odd x -> 0 < y < 2 ^ 64 -> (2 ^ 64 | x * y) -> False) as G.
  { intros x y Hx Hy D.
    assert (Z.gcd (2 ^ 64) x = 1) as R.
    { rewrite Z.gcd_comm. apply (Z.coprime_pow_r x 2 64); [lia |].
      unfold Z.coprime. rewrite Z.gcd_comm.
      apply Z.coprime_prime_l; [exact Z.prime_2 |].
      intros [k Hk]. destruct Hx as [j Hj]. lia. }
    apply Z.gauss in D; [| exact R].
    apply Z.divide_pos_le in D; lia. }
  destruct (Z.Even_or_Odd a) as [Ev | Od].
  - apply (G (a + 1) a); [| lia | now rewrite Z.mul_comm].
    destruct Ev as [k ->]. exists k. lia.
  - apply (G a (a + 1)); [exact Od | lia | exact E].
Qed.

Lemma normalization_divisors_nonzero (n : Z) :
  n < 2 ^ 64 ->
  (2 < n -> size_t_wrap (size_t_wrap (n - 1) * size_t_wrap (n - 2)) <> 0) /\
  (1 < n -> size_t_wrap (n * size_t_wrap (n - 1)) <> 0).
Proof.
  intros Hn. split; intros L.
  - rewrite (size_t_wrap_small (n - 1)), (size_t_wrap_small (n - 2)) by lia.
    replace ((n - 1) * (n - 2)) with ((n - 2) * (n - 2 + 1)) by lia.
    apply consecutive_product_wrap; lia.
  - rewrite (size_t_wrap_small (n - 1)) by lia.
    replace (n * (n - 1)) with ((n - 1) * (n - 1 + 1)) by lia.
    apply consecutive_product_wrap; lia.
Qed.

(** ** The entry points: type checks and dispatch *)

Ltac run_entry :=
  unfold run_action1, run_action2, get_betweenness, get_weighted_betweenness,
    get_central_point_dominance, bind, get_world, modify_props, ret, throw.

Lemma belongs_property (types : list (key_kind * value_type)) (a : any) :
  belongs types a = true -> exists p, a = any_property p.
Proof. destruct a; cbn; try discriminate. eauto. Qed.

Lemma betweenness_rejects {F : Type} `{Scalar F}
    (weight eb vb : any) (normalize : bool) (w : world F) :
  belongs edge_floating_properties eb = false \/
  belongs vertex_floating_properties vb = false ->
  exists what,
    betweenness weight eb vb normalize w = (inl (GraphException what), w).
Proof.
  intros D. unfold betweenness.
  destruct (belongs edge_floating_properties eb) eqn:Ee; cbn [negb].
  - destruct D as [D | D]; [discriminate |]. rewrite D. cbn [negb].
    eexists. reflexivity.
  - eexists. reflexivity.
Qed.

(** C2: when either output map is not floating-valued, [betweenness] throws
    a [GraphException] and leaves the world (the graph and every property
    storage) as it was; when both are floating-valued it throws no such
    exception: the only exception left is the failed cast of the weights. *)
Theorem betweenness_type_check {F : Type} `{Scalar F}
    (weight eb vb : any) (normalize : bool) (w : world F) :
  (belongs edge_floating_properties eb = false \/
   belongs vertex_floating_properties vb = false ->
   exists what,
     betweenness weight eb vb normalize w = (inl (GraphException what), w)) /\
  (belongs edge_floating_properties eb = true ->
   belongs vertex_floating_properties vb = true ->
   forall e, fst (betweenness weight eb vb normalize w) = inl e ->
             e = bad_any_cast).
Proof.
  split.
  - apply betweenness_rejects.
  - intros Ee Ev e. unfold betweenness. rewrite Ee, Ev. cbn [negb].
    destruct (belongs_property _ _ Ee) as [pe ->].
    destruct (belongs_property _ _ Ev) as [pv ->].
    run_entry. rewrite Ee, Ev. cbn [andb negb].
    destruct (any_is_empty weight); cbn [negb].
    + destruct normalize; cbn; discriminate.
    + destruct (any_cast pe weight); cbn.
      * destruct normalize; cbn; discriminate.
      * intros [= <-]. reflexivity.
Qed.

(** C8: [central_point] leaves the world (the graph and every property
    storage) as it was, whatever it is given, and a second call on the same
    arguments returns what the first returned. *)
Theorem central_point_pure {F : Type} `{Scalar F} (vb : any) (w : world F) :
  snd (central_point vb w) = w /\
  central_point vb (snd (central_point vb w)) = central_point vb w.
Proof.
  assert (snd (central_point vb w) = w) as E.
  { unfold central_point. run_entry.
    destruct vb as [| p |]; cbn; try reflexivity.
    destruct (bool_decide _); cbn; [| reflexivity].
    destruct (bool_decide _); reflexivity. }
  split; [exact E | now rewrite E].
Qed.

(** C9: in weighted mode, with both output maps floating-valued, a weight
    map whose type is not exactly the type of the edge betweenness map makes
    the call end in [bad_any_cast] with the world untouched, also when the
    weights are floating-valued themselves; a weight map of exactly that
    type is the one the computation runs with. *)
Theorem weight_map_cast {F : Type} `{Scalar F}
    (weight : any) (pe pv : property_map) (normalize : bool) (w : world F) :
  belongs edge_floating_properties (any_property pe) = true ->
  belongs vertex_floating_properties (any_property pv) = true ->
  any_is_empty weight = false ->
  ((forall pw, weight = any_property pw ->
               pm_kind pw = edge_key /\ pm_type pw = pm_type pe ->
     fst (betweenness weight (any_property pe) (any_property pv) normalize w)
       = inr tt /\
     the_props (snd (betweenness weight (any_property pe) (any_property pv)
                       normalize w)) =
       let g := GetGraphView true (the_graph w) in
       let st := brandes_betweenness_centrality g (Some pw) pe pv (the_props w) in
       if normalize
       then normalize_betweenness g pe pv (GetNumberOfVertices (the_graph w)) st
       else st)) /\
  (~ (exists pw, weight = any_property pw /\
                 pm_kind pw = edge_key /\ pm_type pw = pm_type pe) ->
   betweenness weight (any_property pe) (any_property pv) normalize w
     = (inl bad_any_cast, w)) /\
  (pm_type pe = t_double ->
   forall l, weight = any_property (PMap edge_key t_long_double l) ->
   betweenness weight (any_property pe) (any_property pv) normalize w
     = (inl bad_any_cast, w)).
Proof.
  intros Ee Ev Ew.
  assert (pm_kind pe = edge_key) as Ke.
  { cbn in Ee. apply bool_decide_eq_true, list_elem_of_In in Ee. cbn in Ee.
    destruct Ee as [Ee | [Ee | []]]; congruence. }
  assert (forall pw, any_cast pe (any_property pw) =
            if bool_decide (pm_kind pw = edge_key /\ pm_type pw = pm_type pe)
            then Some pw else None) as Cast.
  { intros pw. cbn. rewrite Ke. reflexivity. }
  assert (any_cast pe weight = None ->
          betweenness weight (any_property pe) (any_property pv) normalize w
            = (inl bad_any_cast, w)) as Fail.
  { intros C. unfold betweenness. rewrite Ee, Ev, Ew. cbn [negb].
    run_entry. rewrite Ee, Ev. cbn [andb]. rewrite C. reflexivity. }
  split; [| split].
  - intros pw -> T. unfold betweenness. rewrite Ee, Ev. cbn [negb any_is_empty].
    run_entry. rewrite Ee, Ev. cbn [andb]. rewrite Cast.
    rewrite bool_decide_eq_true_2 by exact T.
    destruct normalize; cbn; split; reflexivity.
  - intros N. apply Fail. destruct weight as [| pw |]; try reflexivity.
    rewrite Cast. rewrite bool_decide_eq_false_2; [reflexivity |].
    intros T. apply N. eauto.
  - intros Td l ->. apply Fail. rewrite Cast. cbn. rewrite Td.
    rewrite bool_decide_eq_false_2; [reflexivity |].
    intros [_ T]. discriminate T.
Qed.

(** C9 at the star graph: [long double] weights against a [double] edge
    map. *)
Lemma weight_map_cast_witness :
  betweenness (any_property (PMap edge_key t_long_double 2))
              (any_property star_edge_map) (any_property star_vertex_map)
              true star_world
    = (inl bad_any_cast, star_world).
Proof.
  apply (weight_map_cast (any_property (PMap edge_key t_long_double 2))
           star_edge_map star_vertex_map true star_world
           eq_refl eq_refl eq_refl).
  intros (pw & [= <-] & _ & T). discriminate T.
Defined.

(** C10: [central_point] returns normally on every vertex map of a scalar
    value type and leaves the world as it was; on an integer-valued map the
    result is the value computed over the integers by the dispatched
    action, where [betweenness] given the same map throws its
    [GraphException]; the value returned is always the one written by the
    dispatched action: when nothing is dispatched nothing is returned. *)
Theorem central_point_accepts_scalars {F : Type} `{Scalar F}
    (l : nat) (w : world F) :
  (forall t, t ∈ scalar_types ->
     exists c, central_point (any_property (PMap vertex_key t l)) w = (inr c, w)) /\
  (forall t, t ∈ [t_bool; t_int32_t; t_int64_t] ->
     central_point (any_property (PMap vertex_key t l)) w =
       (inr (s_of_Z (central_point_dominance
                       (GetGraphView false (the_graph w))
                       (get_integer (the_props w) (PMap vertex_key t l)))), w) /\
     forall weight eb normalize, exists what,
       betweenness weight eb (any_property (PMap vertex_key t l)) normalize w
         = (inl (GraphException what), w)) /\
  (forall a c w', central_point a w = (inr c, w') ->
     exists p, a = any_property p /\
               get_central_point_dominance (GetGraphView false (the_graph w))
                 p s_zero w = (inr c, w')).
Proof.
  split; [| split].
  - intros t Ht. apply list_elem_of_In in Ht. cbn in Ht.
    destruct Ht as [<- | [<- | [<- | [<- | [<- | []]]]]];
      eexists; reflexivity.
  - intros t Ht. apply list_elem_of_In in Ht. cbn in Ht.
    destruct Ht as [<- | [<- | [<- | []]]];
      (split; [reflexivity |]);
      intros weight eb normalize;
      apply betweenness_rejects; right; reflexivity.
  - intros a c w'. unfold central_point. unfold run_action1 at 1.
    unfold bind at 1 2. unfold get_world at 1.
    destruct a as [| p |]; try discriminate.
    destruct (belongs vertex_scalar_properties (any_property p));
      [| discriminate].
    intros E. exists p. split; [reflexivity |].
    destruct (get_central_point_dominance _ p s_zero w) as [[e | c0] w0];
      [discriminate |].
    unfold ret in E. exact E.
Qed.

Lemma running_maximum_in {V : Type} `{Scalar V} (c : nat -> V) (U : list V)
    (rest : list nat) (m : V) :
  m ∈ U -> (forall v, v ∈ rest -> c v ∈ U) ->
  fold_left (fun m v => if s_ltb m (c v) then c v else m) rest m ∈ U.
Proof.
  revert m. induction rest as [| v rest IH]; intros m Hm Hc; [exact Hm |].
  cbn [fold_left]. apply IH.
  - destruct (s_ltb m (c v)); [apply Hc; left | exact Hm].
  - intros v' Hv'. apply Hc. now right.
Qed.

Lemma maximum_attained {V : Type} `{Scalar V} (c : nat -> V) (vs : list nat) :
  vs <> [] -> maximum c vs ∈ map c vs.
Proof.
  destruct vs as [| v0 rest]; [congruence | intros _].
  cbn [maximum]. apply running_maximum_in.
  - left.
  - intros v Hv. right. apply list_elem_of_fmap. eauto.
Qed.

(** C4: on a floating-valued vertex map [central_point] returns, with the
    world unchanged, the sum over the vertices of [c* - c(v)] divided by
    [n - 1], where [c*] is the largest value of the map on the vertices (one
    of its values), and [0] when [n <= 1]. *)
Theorem central_point_formula {F : Type} `{Scalar F}
    (p : property_map) (w : world F) :
  pm_kind p = vertex_key ->
  pm_type p ∈ floating_types ->
  let vs := vertices (GetGraphView false (the_graph w)) in
  let c := get (the_props w) p in
  let n := Z.of_nat (length vs) in
  central_point (any_property p) w =
    (inr (if n <=? 1 then s_zero
          else s_div (fold_left (fun acc v => s_add acc (s_sub (maximum c vs) (c v)))
                                vs s_zero)
                     (s_of_Z (n - 1))), w) /\
  (n <= 1 -> central_point (any_property p) w = (inr s_zero, w)) /\
  (1 < n -> maximum c vs ∈ map c vs).
Proof.
  intros K T vs c n.
  assert (central_point (any_property p) w =
          (inr (central_point_dominance (GetGraphView false (the_graph w)) c), w))
    as E.
  { unfold central_point. run_entry. cbn [belongs]. rewrite K.
    assert (bool_decide ((vertex_key, pm_type p) ∈ vertex_scalar_properties) = true)
      as ->.
    { apply bool_decide_eq_true. apply list_elem_of_In in T. cbn in T.
      destruct T as [<- | [<- | []]]; apply list_elem_of_In; cbn; auto 10. }
    rewrite bool_decide_eq_true_2 by exact T. reflexivity. }
  split; [| split].
  - rewrite E. reflexivity.
  - intros L. rewrite E. unfold central_point_dominance. fold vs. fold n.
    destruct (n <=? 1) eqn:B; [reflexivity | apply Z.leb_gt in B; lia].
  - intros L. apply maximum_attained. intros E0. subst n.
    rewrite E0 in L. cbn in L. lia.
Qed.

(** C4 at the normalised star: the formula evaluates to [1]. *)
Lemma central_point_formula_witness :
  star_vertex_map.(pm_type) ∈ floating_types /\
  central_point (any_property star_vertex_map) (snd star_normalized)
    = (inr 1%float, snd star_normalized).
Proof.
  assert (pm_type star_vertex_map ∈ floating_types) as T by left.
  split; [exact T |].
  rewrite (proj1 (central_point_formula star_vertex_map (snd star_normalized)
                    eq_refl T)).
  vm_compute. reflexivity.
Defined.

(** ** C3: the star with four leaves *)

(** C3: on the undirected, unweighted star with one centre and four leaves
    ([n = 5]), with zero-initialised output maps in [double] arithmetic, the
    call without normalisation gives the centre the betweenness [6] and every
    leaf [0]; the call with normalisation gives the centre [1.0], and the
    central point dominance of the normalised map is [1.0]. *)
Theorem star_betweenness :
  (is_undirected (GetGraphView true star) = true /\
   GetNumberOfVertices star = 5) /\
  (fst star_raw = inr tt /\
   map (get (the_props (snd star_raw)) star_vertex_map) [0; 1; 2; 3; 4]%nat
     = [6; 0; 0; 0; 0]%float) /\
  (fst star_normalized = inr tt /\
   get (the_props (snd star_normalized)) star_vertex_map 0 = 1%float) /\
  fst (central_point (any_property star_vertex_map) (snd star_normalized))
    = inr 1%float.
Proof.
  split; [split; vm_compute; reflexivity |].
  split; [split; vm_compute; reflexivity |].
  split; [split; vm_compute; reflexivity |].
  vm_compute; reflexivity.
Qed.

(** ** C7: vertices with path count zero in the back-propagation *)

Section Divisors.
Context {F : Type} `{Scalar F}.

Lemma back_edges_divisors {D} (sp : sp_state D) eb w es (acc : acc_state F) :
  path_count sp w <> 0 ->
  nonzero_divisors (divisors acc) ->
  nonzero_divisors (divisors (fold_left (back_edge sp eb w) es acc)).
Proof.
  intros Hw. revert acc. induction es as [| e es IH]; intros acc Hacc.
  - exact Hacc.
  - cbn [fold_left]. apply IH. cbn. now constructor.
Qed.

Lemma back_vertex_skips {D} (sp : sp_state D) eb vb s (acc : acc_state F) w :
  path_count sp w = 0 -> back_vertex sp eb vb s acc w = acc.
Proof. intros E. unfold back_vertex. now rewrite E. Qed.

Lemma back_vertex_divisors {D} (sp : sp_state D) eb vb s (acc : acc_state F) w :
  nonzero_divisors (divisors acc) ->
  nonzero_divisors (divisors (back_vertex sp eb vb s acc w)).
Proof.
  intros Hacc. unfold back_vertex.
  destruct (path_count sp w =? 0) eqn:E; [exact Hacc |].
  apply Z.eqb_neq in E.
  destruct (Nat.eqb w s); cbn; now apply back_edges_divisors.
Qed.

Lemma back_propagation_divisors {D} g (sp : sp_state D) eb vb s (acc : acc_state F) :
  nonzero_divisors (divisors acc) ->
  nonzero_divisors (divisors (back_propagation g sp eb vb s acc)).
Proof.
  unfold back_propagation. generalize (backward_order g sp) as ws.
  intros ws. revert acc. induction ws as [| w ws IH]; intros acc Hacc.
  - exact Hacc.
  - cbn [fold_left]. apply IH. now apply back_vertex_divisors.
Qed.

Lemma brandes_source_divisors g weight eb vb (run : property_store F * list Z) s :
  nonzero_divisors (snd run) ->
  nonzero_divisors (snd (brandes_source g weight eb vb run s)).
Proof.
  destruct run as [st log]. intros Hlog. unfold brandes_source.
  destruct weight; cbn [snd]; now apply back_propagation_divisors.
Qed.

End Divisors.

Section Reach.

Lemma reach_init {D} (zero : D) (s : nat) : counted_within_reach (sp_init zero s).
Proof.
  intros v. unfold path_count, sp_init. cbn.
  destruct (decide (v = s)) as [-> | N].
  - rewrite lookup_singleton_eq. discriminate.
  - rewrite !lookup_singleton_ne by congruence. reflexivity.
Qed.

Lemma reach_discover {D} (sp : sp_state D) v d :
  counted_within_reach sp -> counted_within_reach (discover sp v d).
Proof.
  intros Hsp x. unfold path_count, discover. cbn.
  destruct (decide (x = v)) as [-> | N].
  - rewrite lookup_insert_eq. discriminate.
  - rewrite !lookup_insert_ne by congruence. apply Hsp.
Qed.

Lemma reach_add_incoming {D} (sp : sp_state D) u e :
  is_Some (distance_map sp !! target e) ->
  counted_within_reach sp -> counted_within_reach (add_incoming sp u e).
Proof.
  intros [d Hd] Hsp x Hx. unfold add_incoming in *. unfold path_count at 1.
  cbn in *. rewrite lookup_insert_ne by congruence. now apply Hsp.
Qed.

Lemma reach_discover_add {D} (sp : sp_state D) u e d :
  counted_within_reach sp ->
  counted_within_reach (add_incoming (discover sp (target e) d) u e).
Proof.
  intros Hsp. apply reach_add_incoming; [| now apply reach_discover].
  cbn. rewrite lookup_insert_eq. eauto.
Qed.

Lemma reach_bfs g fuel queue sp :
  counted_within_reach sp -> counted_within_reach (fst (bfs_loop g fuel queue sp)).
Proof.
  revert queue sp. induction fuel as [| fuel IH]; intros queue sp Hsp.
  - exact Hsp.
  - cbn [bfs_loop]. destruct queue as [| u rest]; [exact Hsp |].
    destruct (fold_left _ _ _) as [sp' queue'] eqn:E.
    apply IH.
    change sp' with (fst (sp', queue')). rewrite <- E.
    apply (fold_left_preserves (fun a => counted_within_reach (fst a)));
      [exact Hsp |].
    intros [sp0 q0] e H0. cbn [fst] in H0. unfold relax_unweighted.
    destruct (distance_map sp0 !! target e) as [dv |] eqn:Ev.
    + destruct (dv =? _); cbn [fst]; [| exact H0].
      apply reach_add_incoming; [rewrite Ev; eauto | exact H0].
    + cbn [fst]. now apply reach_discover_add.
Qed.

Lemma reach_dijkstra {F : Type} `{Scalar F} g (weight : nat -> F) fuel queue sp :
  counted_within_reach sp ->
  counted_within_reach (fst (dijkstra_loop g weight fuel queue sp)).
Proof.
  revert queue sp. induction fuel as [| fuel IH]; intros queue sp Hsp.
  - exact Hsp.
  - cbn [dijkstra_loop]. destruct (pop_min sp queue) as [[u rest] |]; [| exact Hsp].
    destruct (fold_left _ _ _) as [sp' queue'] eqn:E.
    apply IH.
    change sp' with (fst (sp', queue')). rewrite <- E.
    apply (fold_left_preserves (fun a => counted_within_reach (fst a)));
      [exact Hsp |].
    intros [sp0 q0] e H0. cbn [fst] in H0. unfold relax_weighted.
    destruct (distance_map sp0 !! target e) as [dv |] eqn:Ev.
    + destruct (s_ltb _ dv); cbn [fst]; [now apply reach_discover_add |].
      destruct (s_eqb dv _); cbn [fst]; [| exact H0].
      apply reach_add_incoming; [rewrite Ev; eauto | exact H0].
    + cbn [fst]. now apply reach_discover_add.
Qed.

(** The vertices that were not reached leave the pass as it found it: the
    back-propagation is the pass over the visited vertices. *)
Lemma back_propagation_visited {F : Type} `{Scalar F} {D} g (sp : sp_state D)
    eb vb s (acc : acc_state F) :
  counted_within_reach sp ->
  back_propagation g sp eb vb s acc =
  fold_left (back_vertex sp eb vb s) (ordered_vertices sp) acc.
Proof.
  intros Hsp. unfold back_propagation, backward_order.
  rewrite fold_left_app. f_equal.
  induction (vertices g) as [| v vs IH]; [reflexivity |].
  cbn [List.filter].
  destruct (bool_decide (is_Some (distance_map sp !! v))) eqn:E; cbn [negb];
    [exact IH |].
  cbn [fold_left]. rewrite back_vertex_skips; [exact IH |].
  apply Hsp. apply bool_decide_eq_false in E.
  destruct (distance_map sp !! v); [exfalso; apply E; eauto | reflexivity].
Qed.

End Reach.

(** C7: in the back-propagation of any source, a vertex [w] with
    [sigma(w) = 0] is skipped: the dependencies, both centrality maps and
    the record of divisions are left exactly as they were; every vertex the
    traversal did not reach has [sigma = 0], so the pass amounts to the pass
    over the visited vertices; and over a whole run, for every source, no
    division has a zero path count as its divisor. *)
Theorem zero_path_count_skipped {F : Type} `{Scalar F} :
  (forall D (sp : sp_state D) (eb vb : property_map) (s : nat)
          (acc : acc_state F) (w : nat),
     path_count sp w = 0 -> back_vertex sp eb vb s acc w = acc) /\
  (forall (g : Graph) (weight : nat -> F) (eb vb : property_map) (s : nat)
          (acc : acc_state F),
     (forall w, distance_map (unweighted_shortest_paths g s) !! w = None ->
                path_count (unweighted_shortest_paths g s) w = 0) /\
     (forall w, distance_map (weighted_shortest_paths g weight s) !! w = None ->
                path_count (weighted_shortest_paths g weight s) w = 0) /\
     back_propagation g (unweighted_shortest_paths g s) eb vb s acc =
       fold_left (back_vertex (unweighted_shortest_paths g s) eb vb s)
                 (ordered_vertices (unweighted_shortest_paths g s)) acc /\
     back_propagation g (weighted_shortest_paths g weight s) eb vb s acc =
       fold_left (back_vertex (weighted_shortest_paths g weight s) eb vb s)
                 (ordered_vertices (weighted_shortest_paths g weight s)) acc) /\
  (forall (g : Graph) (weight : option property_map) (eb vb : property_map)
          (st : property_store F),
     Forall (fun d => d <> 0) (snd (brandes_run g weight eb vb st))).
Proof.
  split; [| split].
  - intros D sp eb vb s acc w. apply back_vertex_skips.
  - intros g weight eb vb s acc.
    assert (counted_within_reach (unweighted_shortest_paths g s)) as Ru
      by apply reach_bfs, reach_init.
    assert (counted_within_reach (weighted_shortest_paths g weight s)) as Rw
      by apply reach_dijkstra, reach_init.
    split; [exact Ru |]. split; [exact Rw |].
    split; now apply back_propagation_visited.
  - intros g weight eb vb st. unfold brandes_run.
    assert (forall ss run, nonzero_divisors (snd run) ->
              nonzero_divisors
                (snd (fold_left (brandes_source g weight eb vb) ss run))) as G.
    { induction ss as [| s ss IH]; intros run Hrun; [exact Hrun |].
      cbn [fold_left]. apply IH. now apply brandes_source_divisors. }
    specialize (G (vertices g) (st, []) (List.Forall_nil _)).
    destruct (fold_left _ _ _) as [st' log]. exact G.
Qed.

(** ** C6: no negative betweenness *)

Section PathCounts.

Lemma counts_nonneg_init {D} (zero : D) (s : nat) : counts_nonneg (sp_init zero s).
Proof.
  intros v. unfold path_count, sp_init. cbn.
  destruct (decide (v = s)) as [-> | N].
  - rewrite lookup_singleton_eq. cbn. lia.
  - rewrite lookup_singleton_ne by congruence. cbn. lia.
Qed.

Lemma counts_nonneg_discover {D} (sp : sp_state D) v d :
  counts_nonneg sp -> counts_nonneg (discover sp v d).
Proof.
  intros Hsp u. unfold path_count, discover. cbn.
  destruct (decide (u = v)) as [-> | N].
  - rewrite lookup_insert_eq. cbn. lia.
  - rewrite lookup_insert_ne by congruence. apply Hsp.
Qed.

Lemma counts_nonneg_add_incoming {D} (sp : sp_state D) u e :
  counts_nonneg sp -> counts_nonneg (add_incoming sp u e).
Proof.
  intros Hsp v. unfold add_incoming. unfold path_count at 1. cbn.
  destruct (decide (v = target e)) as [-> | N].
  - rewrite lookup_insert_eq. cbn. unfold size_t_wrap.
    apply Z.mod_pos_bound. lia.
  - rewrite lookup_insert_ne by congruence. apply Hsp.
Qed.

Lemma counts_nonneg_visit {D} (sp : sp_state D) u :
  counts_nonneg sp -> counts_nonneg (visit sp u).
Proof. intros Hsp v. apply Hsp. Qed.

Lemma counts_nonneg_bfs g fuel queue sp :
  counts_nonneg sp -> counts_nonneg (fst (bfs_loop g fuel queue sp)).
Proof.
  revert queue sp. induction fuel as [| fuel IH]; intros queue sp Hsp.
  - exact Hsp.
  - cbn [bfs_loop]. destruct queue as [| u rest]; [exact Hsp |].
    destruct (fold_left _ _ _) as [sp' queue'] eqn:E.
    apply IH.
    change sp' with (fst (sp', queue')). rewrite <- E.
    apply (fold_left_preserves (fun a => counts_nonneg (fst a))).
    + now apply counts_nonneg_visit.
    + intros [sp0 q0] e H0. cbn [fst] in H0. unfold relax_unweighted.
      destruct (distance_map sp0 !! target e) as [dv |].
      * destruct (dv =? _); cbn [fst];
          [now apply counts_nonneg_add_incoming | exact H0].
      * cbn [fst]. now apply counts_nonneg_add_incoming, counts_nonneg_discover.
Qed.

Lemma counts_nonneg_dijkstra {F : Type} `{Scalar F} g (weight : nat -> F)
    fuel queue sp :
  counts_nonneg sp -> counts_nonneg (fst (dijkstra_loop g weight fuel queue sp)).
Proof.
  revert queue sp. induction fuel as [| fuel IH]; intros queue sp Hsp.
  - exact Hsp.
  - cbn [dijkstra_loop]. destruct (pop_min sp queue) as [[u rest] |]; [| exact Hsp].
    destruct (fold_left _ _ _) as [sp' queue'] eqn:E.
    apply IH.
    change sp' with (fst (sp', queue')). rewrite <- E.
    apply (fold_left_preserves (fun a => counts_nonneg (fst a))).
    + now apply counts_nonneg_visit.
    + intros [sp0 q0] e H0. cbn [fst] in H0. unfold relax_weighted.
      destruct (distance_map sp0 !! target e) as [dv |].
      * destruct (s_ltb _ dv); cbn [fst];
          [now apply counts_nonneg_add_incoming, counts_nonneg_discover |].
        destruct (s_eqb dv _); cbn [fst];
          [now apply counts_nonneg_add_incoming | exact H0].
      * cbn [fst]. now apply counts_nonneg_add_incoming, counts_nonneg_discover.
Qed.

End PathCounts.

Section Closed.
Context {F : Type} `{Scalar F}.

(** A property of values that the constants have and the operations keep. *)
Variable good : F -> Prop.
Hypothesis good_zero : good s_zero.
Hypothesis good_one : good s_one.
Hypothesis good_of_Z : forall z, 0 <= z -> good (s_of_Z z).
Hypothesis good_add : forall x y, good x -> good y -> good (s_add x y).
Hypothesis good_mul : forall x y, good x -> good y -> good (s_mul x y).
Hypothesis good_div : forall x y, good x -> good y -> good (s_div x y).

Lemma all_values_put (st : property_store F) (p q : property_map) (i : nat)
    (x : F) :
  all_values good st q -> good x -> all_values good (put st p i x) q.
Proof.
  intros Hst Hx j.
  destruct (decide (pm_storage q = pm_storage p /\ j = i)) as [[E ->] | N].
  - rewrite get_put_same by exact E. exact Hx.
  - rewrite get_put_other; [apply Hst |].
    destruct (decide (pm_storage q = pm_storage p)); [right | left]; tauto.
Qed.

Lemma all_of_acc_back_edge {D} (sp : sp_state D) pe pv w acc e :
  counts_nonneg sp -> all_of_acc good pe pv acc ->
  all_of_acc good pe pv (back_edge sp pe w acc e).
Proof.
  intros Hsp (Hdep & He & Hv).
  assert (good (s_mul (s_div (s_of_Z (path_count sp (source e)))
                             (s_of_Z (path_count sp w)))
                      (s_add s_one (dependency acc w)))) as Hc.
  { apply good_mul.
    - apply good_div; apply good_of_Z, Hsp.
    - apply good_add; [exact good_one | apply Hdep]. }
  unfold back_edge. split; [| split]; cbn [dependency_map centrality].
  - intros v. unfold dependency at 1. cbn [dependency_map].
    destruct (decide (v = source e)) as [-> | N].
    + rewrite lookup_insert_eq. cbn [default].
      apply good_add; [apply Hdep | exact Hc].
    + rewrite lookup_insert_ne by congruence. apply Hdep.
  - apply all_values_put; [exact He |]. apply good_add; [apply He | exact Hc].
  - apply all_values_put; [exact Hv |]. apply good_add; [apply He | exact Hc].
Qed.

Lemma all_of_acc_back_vertex {D} (sp : sp_state D) pe pv s acc w :
  counts_nonneg sp -> all_of_acc good pe pv acc ->
  all_of_acc good pe pv (back_vertex sp pe pv s acc w).
Proof.
  intros Hsp Hacc. unfold back_vertex.
  destruct (path_count sp w =? 0)%Z; [exact Hacc |].
  assert (all_of_acc good pe pv
            (fold_left (back_edge sp pe w) (incoming sp w) acc))
    as (Hdep & He & Hv).
  { apply (fold_left_preserves (all_of_acc good pe pv)); [exact Hacc |].
    intros a e Ha. now apply all_of_acc_back_edge. }
  destruct (Nat.eqb w s); [now split |].
  assert (good (s_add (get (centrality (fold_left (back_edge sp pe w)
                                          (incoming sp w) acc)) pv w)
                      (dependency (fold_left (back_edge sp pe w)
                                     (incoming sp w) acc) w))) as Hx
    by (apply good_add; [apply Hv | apply Hdep]).
  split; [| split]; cbn [centrality].
  - exact Hdep.
  - now apply all_values_put.
  - now apply all_values_put.
Qed.

Lemma all_values_brandes_source g weight pe pv
    (run : property_store F * list Z) s :
  all_values good (fst run) pe /\ all_values good (fst run) pv ->
  all_values good (fst (brandes_source g weight pe pv run s)) pe /\
  all_values good (fst (brandes_source g weight pe pv run s)) pv.
Proof.
  destruct run as [st log]. cbn [fst]. intros [He Hv].
  assert (all_of_acc good pe pv (Acc ∅ st log)) as Hstart.
  { split; [| now split]. intros v. unfold dependency. cbn.
    rewrite lookup_empty. exact good_zero. }
  assert (forall D (sp : sp_state D), counts_nonneg sp ->
            all_of_acc good pe pv
              (back_propagation g sp pe pv s (Acc ∅ st log)))
    as Hback.
  { intros D sp Hsp. unfold back_propagation.
    apply (fold_left_preserves (all_of_acc good pe pv)); [exact Hstart |].
    intros a w Ha. now apply all_of_acc_back_vertex. }
  unfold brandes_source. destruct weight as [wm |]; cbn [fst].
  - apply (Hback F). apply counts_nonneg_dijkstra, counts_nonneg_init.
  - apply (Hback Z). apply counts_nonneg_bfs, counts_nonneg_init.
Qed.

Lemma all_values_halving g pe pv st :
  all_values good st pe /\ all_values good st pv ->
  all_values good (divide_centrality_by_two g pe pv st) pe /\
  all_values good (divide_centrality_by_two g pe pv st) pv.
Proof.
  assert (forall x, good x -> good (s_div x (s_of_Z 2))) as Hhalf
    by (intros x Hx; apply good_div; [exact Hx | apply good_of_Z; lia]).
  intros Hst. unfold divide_centrality_by_two.
  apply (fold_left_preserves
           (fun st => all_values good st pe /\ all_values good st pv)).
  - apply (fold_left_preserves
             (fun st => all_values good st pe /\ all_values good st pv));
      [exact Hst |].
    intros st0 v [He Hv]. unfold halve_vertex.
    split; apply all_values_put; auto.
  - intros st0 e [He Hv]. unfold halve_edge.
    split; apply all_values_put; auto.
Qed.

Lemma all_values_brandes g weight pe pv st :
  all_values good st pe /\ all_values good st pv ->
  all_values good (brandes_betweenness_centrality g weight pe pv st) pe /\
  all_values good (brandes_betweenness_centrality g weight pe pv st) pv.
Proof.
  intros Hst. unfold brandes_betweenness_centrality, brandes_run.
  assert (all_values good (fst (fold_left (brandes_source g weight pe pv)
                                  (vertices g) (st, []))) pe /\
          all_values good (fst (fold_left (brandes_source g weight pe pv)
                                  (vertices g) (st, []))) pv) as Hsum.
  { apply (fold_left_preserves
             (fun run => all_values good (fst run) pe /\
                         all_values good (fst run) pv));
      [exact Hst |].
    intros run s Hrun. now apply all_values_brandes_source. }
  destruct (fold_left _ _ _) as [st' log]. cbn [fst] in *.
  destruct (is_undirected g); [now apply all_values_halving | exact Hsum].
Qed.

Lemma good_factors (undirected : bool) (n : Z) :
  good (vfactor undirected n) /\ good (efactor undirected n).
Proof.
  assert (forall z, good (s_div s_one (s_of_Z (size_t_wrap z)))) as Hinv.
  { intros z. apply good_div; [exact good_one |]. apply good_of_Z.
    unfold size_t_wrap. apply Z.mod_pos_bound. lia. }
  assert (forall x, good x -> good (s_mul x (s_of_Z 2))) as Hdouble
    by (intros x Hx; apply good_mul; [exact Hx | apply good_of_Z; lia]).
  unfold vfactor, efactor.
  split.
  - destruct undirected; [apply Hdouble |];
      destruct (2 <? n)%Z; try apply Hinv; exact good_one.
  - destruct undirected; [apply Hdouble |];
      destruct (1 <? n)%Z; try apply Hinv; exact good_one.
Qed.

Lemma all_values_normalize g pe pv n st :
  all_values good st pe /\ all_values good st pv ->
  all_values good (normalize_betweenness g pe pv n st) pe /\
  all_values good (normalize_betweenness g pe pv n st) pv.
Proof.
  destruct (good_factors (is_undirected g) n) as [Hvf Hef].
  intros Hst. unfold normalize_betweenness.
  apply (fold_left_preserves
           (fun st => all_values good st pe /\ all_values good st pv)).
  - apply (fold_left_preserves
             (fun st => all_values good st pe /\ all_values good st pv));
      [exact Hst |].
    intros st0 v [He Hv]. unfold scale_vertex.
    destruct (vertex_ok g v); [| now split].
    split; apply all_values_put; auto.
  - intros st0 e [He Hv]. unfold scale_edge.
    split; apply all_values_put; auto.
Qed.

Lemma all_values_betweenness (weight : any) (pe pv : property_map)
    (normalize : bool) (w : world F) :
  all_values good (the_props w) pe /\ all_values good (the_props w) pv ->
  all_values good (the_props (snd (betweenness weight (any_property pe)
                                     (any_property pv) normalize w))) pe /\
  all_values good (the_props (snd (betweenness weight (any_property pe)
                                     (any_property pv) normalize w))) pv.
Proof.
  intros Hw. unfold betweenness.
  destruct (belongs edge_floating_properties (any_property pe)) eqn:Ee;
    cbn [negb]; [| exact Hw].
  destruct (belongs vertex_floating_properties (any_property pv)) eqn:Ev;
    cbn [negb]; [| exact Hw].
  run_entry. rewrite Ee, Ev. cbn [andb].
  destruct (any_is_empty weight); cbn [negb].
  - destruct normalize; cbn [snd the_props].
    + now apply all_values_normalize, all_values_brandes.
    + now apply all_values_brandes.
  - destruct (any_cast pe weight) as [wm |]; [| exact Hw].
    destruct normalize; cbn [snd the_props].
    + now apply all_values_normalize, all_values_brandes.
    + now apply all_values_brandes.
Qed.

End Closed.

(** ** Signs in binary64

    Rounding keeps the sign it is given, so a sum, a product and a quotient
    of numbers that are not negative is not negative: it is a number with a
    clear sign bit, or not a number at all. *)

Lemma binary_round_aux_sign prec emax (m e : Z) (l : location) :
  sign_clear_or_nan (binary_round_aux prec emax false m e l) = true.
Proof.
  unfold binary_round_aux.
  destruct (shr_fexp prec emax m e l) as [mrs' e'].
  destruct (shr_fexp prec emax _ e' loc_Exact) as [mrs'' e''].
  destruct (shr_m mrs''); [reflexivity | | reflexivity].
  destruct (e'' <=? emax - prec); reflexivity.
Qed.

Lemma binary_round_sign prec emax (m : positive) (e : Z) :
  sign_clear_or_nan (binary_round prec emax false m e) = true.
Proof.
  unfold binary_round. destruct (shl_align m e _) as [mz ez].
  apply binary_round_aux_sign.
Qed.

Lemma binary_normalize_sign prec emax (m e : Z) :
  0 <= m -> sign_clear_or_nan (binary_normalize prec emax m e false) = true.
Proof.
  intros Hm. destruct m as [| p | p]; [reflexivity | | lia].
  apply binary_round_sign.
Qed.

Lemma SFadd_sign prec emax (x y : spec_float) :
  sign_clear_or_nan x = true -> sign_clear_or_nan y = true ->
  sign_clear_or_nan (SFadd prec emax x y) = true.
Proof.
  destruct x as [[] | [] | | [] mx ex], y as [[] | [] | | [] my ey];
    cbn [sign_clear_or_nan negb]; try discriminate; try reflexivity.
  intros _ _. unfold SFadd. cbn [cond_Zopp].
  apply binary_normalize_sign. cbn. lia.
Qed.

Lemma SFmul_sign prec emax (x y : spec_float) :
  sign_clear_or_nan x = true -> sign_clear_or_nan y = true ->
  sign_clear_or_nan (SFmul prec emax x y) = true.
Proof.
  destruct x as [[] | [] | | [] mx ex], y as [[] | [] | | [] my ey];
    cbn [sign_clear_or_nan negb]; try discriminate; try reflexivity.
  intros _ _. apply binary_round_aux_sign.
Qed.

Lemma SFdiv_sign prec emax (x y : spec_float) :
  sign_clear_or_nan x = true -> sign_clear_or_nan y = true ->
  sign_clear_or_nan (SFdiv prec emax x y) = true.
Proof.
  destruct x as [[] | [] | | [] mx ex], y as [[] | [] | | [] my ey];
    cbn [sign_clear_or_nan negb]; try discriminate; try reflexivity.
  intros _ _. unfold SFdiv.
  destruct (SFdiv_core_binary _ _ _ _ _ _) as [[mz ez] lz].
  apply binary_round_aux_sign.
Qed.

Lemma never_negative_add (x y : float) :
  never_negative x -> never_negative y -> never_negative (x + y).
Proof. unfold never_negative. rewrite add_spec. apply SFadd_sign. Qed.

Lemma never_negative_mul (x y : float) :
  never_negative x -> never_negative y -> never_negative (x * y).
Proof. unfold never_negative. rewrite mul_spec. apply SFmul_sign. Qed.

Lemma never_negative_div (x y : float) :
  never_negative x -> never_negative y -> never_negative (x / y).
Proof. unfold never_negative. rewrite div_spec. apply SFdiv_sign. Qed.

Lemma never_negative_of_uint63 (n : PrimInt63.int) :
  never_negative (of_uint63 n).
Proof.
  unfold never_negative. rewrite of_uint63_spec.
  apply binary_normalize_sign. apply Uint63.to_Z_bounded.
Qed.

Lemma never_negative_ldexp (f : float) (e : Z) :
  never_negative f -> never_negative (Z.ldexp f e).
Proof.
  unfold never_negative, Z.ldexp. intros Hf. rewrite ldshiftexp_spec.
  destruct (Prim2SF f) as [[] | [] | | [] m ex];
    try discriminate; try reflexivity.
  cbn [SFldexp]. apply binary_round_sign.
Qed.

Lemma never_negative_SF2Prim (s : spec_float) :
  sign_clear_or_nan s = true -> never_negative (SF2Prim s).
Proof.
  destruct s as [[] | [] | | [] m e]; try discriminate; intros _;
    try (vm_compute; reflexivity).
  cbn [SF2Prim]. apply never_negative_ldexp, never_negative_of_uint63.
Qed.

Lemma never_negative_of_Z (z : Z) : 0 <= z -> never_negative (double_of_Z z).
Proof.
  intros Hz. apply never_negative_SF2Prim, binary_normalize_sign, Hz.
Qed.

Lemma never_negative_compare (x : float) :
  never_negative x ->
  PrimFloat.ltb x 0 = false /\
  (PrimFloat.is_nan x = false -> PrimFloat.leb 0 x = true).
Proof.
  unfold never_negative, PrimFloat.is_nan.
  rewrite FloatAxioms.ltb_spec, FloatAxioms.leb_spec, FloatAxioms.eqb_spec.
  change (Prim2SF 0) with (S754_zero false).
  destruct (Prim2SF x) as [[] | [] | | [] m e]; try discriminate; intros _;
    (split; [reflexivity |]); try reflexivity.
  cbn. unfold SFeqb. cbn. discriminate.
Qed.

Lemma never_negative_betweenness (weight : any) (pe pv : property_map)
    (normalize : bool) (w : world float) :
  all_values never_negative (the_props w) pe /\
  all_values never_negative (the_props w) pv ->
  all_values never_negative
    (the_props (snd (betweenness weight (any_property pe) (any_property pv)
                       normalize w))) pe /\
  all_values never_negative
    (the_props (snd (betweenness weight (any_property pe) (any_property pv)
                       normalize w))) pv.
Proof.
  apply (all_values_betweenness never_negative).
  - reflexivity.
  - reflexivity.
  - exact never_negative_of_Z.
  - exact never_negative_add.
  - exact never_negative_mul.
  - exact never_negative_div.
Qed.

(** C6: in [double] arithmetic, for every graph, every weight argument and
    either setting of [normalize], a call of [betweenness] on output maps
    that are zero everywhere ends with no negative value in the vertex map
    and none in the edge map: every value that is a number is at least [0].
    A value can be not a number. *)
Theorem betweenness_never_negative
    (weight : any) (pe pv : property_map) (normalize : bool)
    (w : world float) :
  (forall i, get (the_props w) pe i = 0%float) ->
  (forall i, get (the_props w) pv i = 0%float) ->
  (forall v,
     let x := get (the_props
                     (snd (betweenness weight (any_property pe)
                             (any_property pv) normalize w))) pv v in
     PrimFloat.ltb x 0 = false /\
     (PrimFloat.is_nan x = false -> PrimFloat.leb 0 x = true)) /\
  (forall e,
     let x := get (the_props
                     (snd (betweenness weight (any_property pe)
                             (any_property pv) normalize w))) pe e in
     PrimFloat.ltb x 0 = false /\
     (PrimFloat.is_nan x = false -> PrimFloat.leb 0 x = true)).
Proof.
  intros Ze Zv.
  destruct (never_negative_betweenness weight pe pv normalize w) as [He Hv].
  { split; intros i; unfold all_values; [rewrite (Ze i) | rewrite (Zv i)];
      reflexivity. }
  split; intros i; apply never_negative_compare; [apply Hv | apply He].
Qed.

(** C6 at the star graph: no value is negative, and the centre has the
    value one. *)
Lemma betweenness_never_negative_witness :
  (forall v,
     let x := get (the_props
                     (snd (betweenness any_empty (any_property star_edge_map)
                             (any_property star_vertex_map) true star_world)))
                  star_vertex_map v in
     PrimFloat.ltb x 0 = false /\
     (PrimFloat.is_nan x = false -> PrimFloat.leb 0 x = true)) /\
  get (the_props
         (snd (betweenness any_empty (any_property star_edge_map)
                 (any_property star_vertex_map) true star_world)))
      star_vertex_map 0 = 1%float.
Proof.
  split.
  - refine (proj1 (betweenness_never_negative any_empty star_edge_map
                     star_vertex_map true star_world _ _));
      intros i; reflexivity.
  - vm_compute. reflexivity.
Defined.

(** ** C6: a value that is not a number

    Every write to a centrality map replaces a value [x] by a sum
    [x + c], a quotient [x / c] or a product [c * x]: a value that is not a
    number stays so until the call returns. *)

Section Stuck.
Context {F : Type} `{Scalar F}.

Variable stuck : F -> Prop.
Hypothesis stuck_add : forall x c, stuck x -> stuck (s_add x c).
Hypothesis stuck_div : forall x c, stuck x -> stuck (s_div x c).
Hypothesis stuck_mul : forall c x, stuck x -> stuck (s_mul c x).

Variable pe : property_map.
Variable i : nat.

Lemma stuck_update (st : property_store F) (p : property_map) (k : nat)
    (f : F -> F) :
  (forall x, stuck x -> stuck (f x)) ->
  stuck (get st pe i) -> stuck (get (put st p k (f (get st p k))) pe i).
Proof.
  intros Hf Hst.
  destruct (decide (pm_storage pe = pm_storage p /\ i = k)) as [[E ->] | N].
  - rewrite get_put_same by exact E. apply Hf.
    unfold get in *. now rewrite <- E.
  - rewrite get_put_other; [exact Hst |].
    destruct (decide (pm_storage pe = pm_storage p)); [right | left]; tauto.
Qed.

Lemma stuck_back_vertex {D} (sp : sp_state D) pe' pv s acc w :
  stuck (get (centrality acc) pe i) ->
  stuck (get (centrality (back_vertex sp pe' pv s acc w)) pe i).
Proof.
  intros Hacc. unfold back_vertex.
  destruct (path_count sp w =? 0)%Z; [exact Hacc |].
  assert (stuck (get (centrality (fold_left (back_edge sp pe' w)
                                    (incoming sp w) acc)) pe i)) as Hedges.
  { apply (fold_left_preserves (fun a => stuck (get (centrality a) pe i)));
      [exact Hacc |].
    intros a e Ha. unfold back_edge. cbn [centrality].
    apply (stuck_update (centrality a) pe' (edge_index e)
             (fun x => s_add x _)); [| exact Ha].
    intros x. apply stuck_add. }
  destruct (Nat.eqb w s); [exact Hedges |]. cbn [centrality].
  apply (stuck_update _ pv w (fun x => s_add x _)); [| exact Hedges].
  intros x. apply stuck_add.
Qed.

Lemma stuck_brandes_source g weight pe' pv
    (run : property_store F * list Z) s :
  stuck (get (fst run) pe i) ->
  stuck (get (fst (brandes_source g weight pe' pv run s)) pe i).
Proof.
  destruct run as [st log]. cbn [fst]. intros Hst.
  assert (forall D (sp : sp_state D),
            stuck (get (centrality
                          (back_propagation g sp pe' pv s (Acc ∅ st log)))
                       pe i)) as Hback.
  { intros D sp. unfold back_propagation.
    apply (fold_left_preserves (fun a => stuck (get (centrality a) pe i)));
      [exact Hst |].
    intros a w Ha. now apply stuck_back_vertex. }
  unfold brandes_source. destruct weight as [wm |]; cbn [fst]; apply Hback.
Qed.

Lemma stuck_halving g pe' pv st :
  stuck (get st pe i) ->
  stuck (get (divide_centrality_by_two g pe' pv st) pe i).
Proof.
  intros Hst. unfold divide_centrality_by_two.
  apply (fold_left_preserves (fun st => stuck (get st pe i))).
  - apply (fold_left_preserves (fun st => stuck (get st pe i))); [exact Hst |].
    intros st0 v H0. unfold halve_vertex.
    apply (stuck_update st0 pv v (fun x => s_div x _)); [| exact H0].
    intros x. apply stuck_div.
  - intros st0 e H0. unfold halve_edge.
    apply (stuck_update st0 pe' (edge_index e) (fun x => s_div x _));
      [| exact H0].
    intros x. apply stuck_div.
Qed.

Lemma stuck_normalize g pe' pv n st :
  stuck (get st pe i) ->
  stuck (get (normalize_betweenness g pe' pv n st) pe i).
Proof.
  intros Hst. unfold normalize_betweenness.
  apply (fold_left_preserves (fun st => stuck (get st pe i))).
  - apply (fold_left_preserves (fun st => stuck (get st pe i))); [exact Hst |].
    intros st0 v H0. unfold scale_vertex.
    destruct (vertex_ok g v); [| exact H0].
    apply (stuck_update st0 pv v (fun x => s_mul _ x)); [| exact H0].
    intros x. apply stuck_mul.
  - intros st0 e H0. unfold scale_edge.
    apply (stuck_update st0 pe' (edge_index e) (fun x => s_mul _ x));
      [| exact H0].
    intros x. apply stuck_mul.
Qed.

(** What the first source leaves stuck is stuck when the run ends. *)
Lemma stuck_after_first_source g weight pe' pv st s rest :
  vertices g = s :: rest ->
  stuck (get (fst (brandes_source g weight pe' pv (st, []) s)) pe i) ->
  stuck (get (brandes_betweenness_centrality g weight pe' pv st) pe i).
Proof.
  intros Hv Hs. unfold brandes_betweenness_centrality, brandes_run.
  rewrite Hv. cbn [fold_left].
  assert (stuck (get (fst (fold_left (brandes_source g weight pe' pv) rest
                             (brandes_source g weight pe' pv (st, []) s)))
                     pe i)) as Hsum.
  { apply (fold_left_preserves (fun run => stuck (get (fst run) pe i)));
      [exact Hs |].
    intros run s' Hrun. now apply stuck_brandes_source. }
  destruct (fold_left _ _ _) as [st' log]. cbn [fst] in *.
  destruct (is_undirected g); [now apply stuck_halving | exact Hsum].
Qed.

End Stuck.

Lemma not_a_number_add (x c : float) :
  not_a_number x -> not_a_number (x + c).
Proof. unfold not_a_number. intros Hx. now rewrite add_spec, Hx. Qed.

Lemma not_a_number_div (x c : float) :
  not_a_number x -> not_a_number (x / c).
Proof. unfold not_a_number. intros Hx. now rewrite div_spec, Hx. Qed.

Lemma not_a_number_mul (c x : float) :
  not_a_number x -> not_a_number (c * x).
Proof.
  unfold not_a_number. intros Hx. rewrite mul_spec, Hx.
  now destruct (Prim2SF c).
Qed.

Lemma not_a_number_compare (x : float) :
  not_a_number x -> PrimFloat.is_nan x = true /\ PrimFloat.leb 0 x = false.
Proof.
  unfold not_a_number, PrimFloat.is_nan. intros Hx.
  rewrite FloatAxioms.leb_spec, FloatAxioms.eqb_spec, Hx.
  split; reflexivity.
Qed.

Lemma unweighted_betweenness_runs {F : Type} `{Scalar F}
    (pe pv : property_map) (normalize : bool) (w : world F) :
  belongs edge_floating_properties (any_property pe) = true ->
  belongs vertex_floating_properties (any_property pv) = true ->
  betweenness any_empty (any_property pe) (any_property pv) normalize w =
  (inr tt,
   World (the_graph w)
     (let g := GetGraphView true (the_graph w) in
      let st := brandes_betweenness_centrality g None pe pv (the_props w) in
      if normalize
      then normalize_betweenness g pe pv (GetNumberOfVertices (the_graph w)) st
      else st)).
Proof.
  intros Ee Ev. unfold betweenness. rewrite Ee, Ev. cbn [negb any_is_empty].
  run_entry. rewrite Ee, Ev. cbn [andb]. now destruct normalize.
Qed.

Lemma overflow_first_source :
  vertices (GetGraphView true overflow_graph)
  = 0%nat :: tl (vertices (GetGraphView true overflow_graph)) /\
  not_a_number
    (get (fst (brandes_source (GetGraphView true overflow_graph) None
                 star_edge_map star_vertex_map (Store ∅ ∅, []) 0%nat))
         star_edge_map 160).
Proof. split; vm_compute; reflexivity. Qed.

(** C6, the claim as worded fails: on [overflow_graph], with both maps zero
    everywhere, [betweenness] returns normally, with or without
    normalisation, and the value of the edge from vertex 32 to vertex 65 is
    not a number: [0 <= value] is false. The path count of vertex 32 has
    wrapped to zero, the dependency of vertex 65 has overflowed, and their
    product is the contribution of the edge. *)
Lemma betweenness_not_a_number_on_overflow :
  (forall i, get (the_props overflow_world) star_edge_map i = 0%float) /\
  (forall i, get (the_props overflow_world) star_vertex_map i = 0%float) /\
  (forall normalize,
     let r := betweenness any_empty (any_property star_edge_map)
                (any_property star_vertex_map) normalize overflow_world in
     fst r = inr tt /\
     PrimFloat.is_nan (get (the_props (snd r)) star_edge_map 160) = true /\
     PrimFloat.leb 0 (get (the_props (snd r)) star_edge_map 160) = false).
Proof.
  split; [intros i; reflexivity |]. split; [intros i; reflexivity |].
  intros normalize.
  rewrite (unweighted_betweenness_runs star_edge_map star_vertex_map normalize
             overflow_world eq_refl eq_refl).
  cbv zeta. cbn [fst snd the_props the_graph overflow_world].
  split; [reflexivity |]. apply not_a_number_compare.
  destruct overflow_first_source as [Hv Hs].
  assert (not_a_number
            (get (brandes_betweenness_centrality
                    (GetGraphView true overflow_graph) None
                    star_edge_map star_vertex_map (Store ∅ ∅))
                 star_edge_map 160)) as Hrun.
  { apply (@stuck_after_first_source float double_scalar not_a_number
             not_a_number_add not_a_number_div star_edge_map 160
             (GetGraphView true overflow_graph) None star_edge_map
             star_vertex_map (Store ∅ ∅) 0%nat _ Hv Hs). }
  destruct normalize; [| exact Hrun].
  apply (@stuck_normalize float double_scalar not_a_number
           not_a_number_mul); exact Hrun.
Qed.

(** ** C5: unit weights against no weights *)

Section UnitWeights.
Context {F : Type} `{Scalar F}.



















End UnitWeights.

(** The rationals represent every integer exactly. *)
Lemma exact_counts_exactly (K : Z) : counts_exactly Q K.
Proof.
  split; [reflexivity | split].
  - intros a _. cbn. unfold Qplus, inject_Z. cbn. f_equal. lia.
  - intros a b _ _. cbn. unfold Qle_bool, Qeq_bool, inject_Z. cbn.
    rewrite !Z.mul_1_r. split.
    + destruct (Z.leb_spec b a), (Z.ltb_spec a b); cbn; try reflexivity; lia.
    + destruct (Z.compare_spec a b), (Z.eqb_spec a b); try reflexivity; lia.
Qed.










(** * Further properties of the code *)

(** ** The normalisation pass, slot by slot *)

Section ScaleCount.
Context {F : Type} `{Scalar F}.

(** After a rescaling loop a slot has been multiplied once for every element
    of the list that has it as key and passes the test. *)
Lemma scale_loop_count {A} (key : A -> nat) (ok : A -> bool) p c (xs : list A)
    st j :
  get (scale_loop key ok p c xs st) p j =
  Nat.iter (length (List.filter (fun x => Nat.eqb (key x) j && ok x) xs))
           (s_mul c) (get st p j).
Proof.
  revert st. induction xs as [| x xs IH]; intros st; [reflexivity |].
  rewrite scale_loop_cons, IH. cbn [List.filter].
  destruct (Nat.eqb_spec (key x) j) as [E | N]; cbn [andb].
  - destruct (ok x); [| reflexivity].
    cbn [length]. rewrite Nat.iter_succ_r. subst j.
    rewrite get_put_same by reflexivity. reflexivity.
  - destruct (ok x); [| reflexivity].
    rewrite get_put_other by (right; congruence). reflexivity.
Qed.

Lemma scale_loop_store {A} (key : A -> nat) (ok : A -> bool) p c (xs : list A)
    st :
  integer_store (scale_loop key ok p c xs st) = integer_store st /\
  forall l, l <> pm_storage p ->
    floating_store (scale_loop key ok p c xs st) !! l = floating_store st !! l.
Proof.
  revert st. induction xs as [| x xs IH]; intros st; [now split |].
  rewrite scale_loop_cons.
  destruct (IH (if ok x then put st p (key x) (s_mul c (get st p (key x)))
                else st)) as [Hi Hf].
  split.
  - rewrite Hi. destruct (ok x); reflexivity.
  - intros l Hl. rewrite Hf by exact Hl. destruct (ok x); [| reflexivity].
    cbn. now rewrite lookup_insert_ne by congruence.
Qed.

Lemma count_in_seq (ok : nat -> bool) (j K : nat) :
  length (List.filter (fun i => Nat.eqb i j && ok i) (seq 0 K)) =
  if Nat.ltb j K && ok j then 1%nat else 0%nat.
Proof.
  induction K as [| K IH]; [reflexivity |].
  rewrite seq_S, List.filter_app, length_app, IH. cbn [List.filter Nat.add].
  destruct (Nat.eqb_spec K j) as [-> | N]; cbn [andb].
  - rewrite Nat.ltb_irrefl. cbn [andb].
    replace (Nat.ltb j (S j)) with true by (symmetry; apply Nat.ltb_lt; lia).
    cbn [andb]. destruct (ok j); reflexivity.
  - cbn [length].
    replace (Nat.ltb j (S K)) with (Nat.ltb j K); [lia |].
    destruct (Nat.ltb_spec j K), (Nat.ltb_spec j (S K)); try reflexivity; lia.
Qed.

End ScaleCount.

(** X1: with the two maps in distinct storages, the normalisation pass
    multiplies the vertex slot [v] by [vfactor] exactly when [v] is below the
    [int] value of the vertex count and is not filtered out, and leaves every
    other slot of the vertex map as it was. *)
Theorem normalize_vertex_slots {F : Type} `{Scalar F}
    (g : Graph) (eb vb : property_map) (n : Z) (st : property_store F) :
  pm_storage eb <> pm_storage vb ->
  forall v,
    get (normalize_betweenness g eb vb n st) vb v =
    if Nat.ltb v (Z.to_nat (int_wrap (Z.of_nat (num_vertices g)))) && vertex_ok g v
    then s_mul (vfactor (is_undirected g) n) (get st vb v)
    else get st vb v.
Proof.
  intros Hst v. unfold normalize_betweenness.
  rewrite edge_loop_is_scale_loop, scale_loop_other by (left; congruence).
  rewrite vertex_loop_is_scale_loop, scale_loop_count. unfold vertex_loop_range.
  cbv beta. rewrite count_in_seq.
  destruct (Nat.ltb v _ && vertex_ok g v); reflexivity.
Qed.

(** X1 at a graph with a filtered vertex. *)
Lemma normalize_vertex_slots_witness :
  get (normalize_betweenness shared_index_graph star_edge_map star_vertex_map 3
         (put (the_props star_world) star_vertex_map 2 5%float))
      star_vertex_map 2 = 5%float.
Proof.
  rewrite (normalize_vertex_slots (F := float) shared_index_graph
             star_edge_map star_vertex_map 3
             (put (the_props star_world) star_vertex_map 2 5%float)
             ltac:(discriminate) 2%nat).
  reflexivity.
Defined.

(** X2: with the two maps in distinct storages, the normalisation pass
    multiplies the edge slot [i] by [efactor] once for every edge of the
    graph that carries the index [i]: not at all for an index no edge
    carries, and several times for an index that edges share. *)
Theorem normalize_edge_slots {F : Type} `{Scalar F}
    (g : Graph) (eb vb : property_map) (n : Z) (st : property_store F) :
  pm_storage eb <> pm_storage vb ->
  forall i,
    get (normalize_betweenness g eb vb n st) eb i =
    Nat.iter (length (List.filter (fun e => Nat.eqb (edge_index e) i) (edges g)))
             (s_mul (efactor (is_undirected g) n)) (get st eb i).
Proof.
  intros Hst i. unfold normalize_betweenness.
  rewrite edge_loop_is_scale_loop, scale_loop_count.
  rewrite vertex_loop_is_scale_loop, scale_loop_other by (now left).
  f_equal. f_equal. apply filter_ext. intros e. apply andb_true_r.
Qed.

(** X2 at three edges sharing one index: the slot is scaled three times. *)
Lemma normalize_edge_slots_witness :
  get (normalize_betweenness shared_index_graph star_edge_map star_vertex_map 3
         (put (the_props star_world) star_edge_map 7 1%float))
      star_edge_map 7
  = (PrimFloat.div 1 6 * (PrimFloat.div 1 6 * (PrimFloat.div 1 6 * 1)))%float.
Proof.
  rewrite (normalize_edge_slots (F := float) shared_index_graph
             star_edge_map star_vertex_map 3
             (put (the_props star_world) star_edge_map 7 1%float)
             ltac:(discriminate) 7%nat).
  vm_compute. reflexivity.
Defined.

(** X3: the normalisation pass writes the two centrality maps only: the
    integer-valued storages and every floating-valued storage other than
    those of the two maps are left as they were. *)
Theorem normalize_frame {F : Type} `{Scalar F}
    (g : Graph) (eb vb : property_map) (n : Z) (st : property_store F) :
  integer_store (normalize_betweenness g eb vb n st) = integer_store st /\
  forall l, l <> pm_storage eb -> l <> pm_storage vb ->
    floating_store (normalize_betweenness g eb vb n st) !! l
    = floating_store st !! l.
Proof.
  unfold normalize_betweenness.
  rewrite edge_loop_is_scale_loop, vertex_loop_is_scale_loop.
  split.
  - rewrite (proj1 (scale_loop_store _ _ _ _ _ _)).
    apply (proj1 (scale_loop_store _ _ _ _ _ _)).
  - intros l He Hv.
    rewrite (proj2 (scale_loop_store _ _ _ _ _ _)) by exact He.
    apply (proj2 (scale_loop_store _ _ _ _ _ _)), Hv.
Qed.

(** X4: when the vertex count is between [2^31] and [2^32 - 1] the [int]
    counter of the vertex loop starts above its bound: the pass leaves the
    whole vertex map as it was. *)
Theorem normalize_int_counter_overflow {F : Type} `{Scalar F}
    (g : Graph) (eb vb : property_map) (n : Z) (st : property_store F) :
  2 ^ 31 <= Z.of_nat (num_vertices g) < 2 ^ 32 ->
  pm_storage eb <> pm_storage vb ->
  forall v, get (normalize_betweenness g eb vb n st) vb v = get st vb v.
Proof.
  intros HN Hst v. unfold normalize_betweenness.
  rewrite edge_loop_is_scale_loop, scale_loop_other by (left; congruence).
  assert (vertex_loop_range g = []) as ->.
  { unfold vertex_loop_range.
    assert (int_wrap (Z.of_nat (num_vertices g)) < 0) as Neg.
    { unfold int_wrap.
      replace (Z.of_nat (num_vertices g) + 2 ^ 31)
        with (Z.of_nat (num_vertices g) - 2 ^ 31 + 1 * 2 ^ 32) by lia.
      rewrite Z.mod_add by lia. rewrite Z.mod_small; lia. }
    destruct (int_wrap (Z.of_nat (num_vertices g))); try lia. reflexivity. }
  reflexivity.
Qed.

Lemma wide_graph_count :
  2 ^ 31 <= Z.of_nat (num_vertices wide_graph) < 2 ^ 32.
Proof.
  change (num_vertices wide_graph) with (Z.to_nat (2 ^ 31)).
  rewrite Z2Nat.id; lia.
Qed.

(** X4 at a graph with [2^31] vertices: slot 0 keeps its value. *)
Lemma normalize_int_counter_overflow_witness :
  get (normalize_betweenness wide_graph star_edge_map star_vertex_map
         (2 ^ 31) (put (the_props star_world) star_vertex_map 0 3%float))
      star_vertex_map 0 = 3%float.
Proof.
  rewrite (normalize_int_counter_overflow (F := float) wide_graph
             star_edge_map star_vertex_map (2 ^ 31)
             (put (the_props star_world) star_vertex_map 0 3%float)
             wide_graph_count ltac:(discriminate) 0%nat).
  reflexivity.
Defined.

(** ** The two factors *)

Lemma wrap_is_identity (z : Z) : size_t_wrap z = z <-> 0 <= z < 2 ^ 64.
Proof.
  unfold size_t_wrap. split.
  - intros E. rewrite <- E. apply Z.mod_pos_bound. lia.
  - intros B. now apply Z.mod_small.
Qed.

Lemma consecutive_product_bound (a : Z) :
  0 < a -> (a * (a + 1) < 2 ^ 64 <-> a <= 2 ^ 32 - 1).
Proof.
  intros Ha. split.
  - intros L. destruct (Z.le_gt_cases a (2 ^ 32 - 1)) as [Le | Gt]; [exact Le |].
    assert (2 ^ 32 * (2 ^ 32 + 1) <= a * (a + 1))
      by (apply Z.mul_le_mono_nonneg; lia).
    change (2 ^ 64) with (2 ^ 32 * 2 ^ 32) in L. lia.
  - intros Le.
    assert (a * (a + 1) <= (2 ^ 32 - 1) * 2 ^ 32)
      by (apply Z.mul_le_mono_nonneg; lia).
    change (2 ^ 64) with (2 ^ 32 * 2 ^ 32). lia.
Qed.

Section ExactFactors.
Local Open Scope Q_scope.

Lemma unit_fraction_eq (a b : Z) :
  (0 < a)%Z -> (0 < b)%Z -> (1 / inject_Z a == 1 / inject_Z b <-> a = b).
Proof.
  intros Ha Hb. destruct a as [| a | a]; try lia. destruct b as [| b | b]; try lia.
  unfold Qdiv, Qinv, Qmult, Qeq, inject_Z. cbn. split.
  - intros E. f_equal. lia.
  - intros [= ->]. reflexivity.
Qed.

Lemma vertex_divisor_positive (n : Z) :
  (2 < n < 2 ^ 64)%Z ->
  (0 < size_t_wrap (size_t_wrap (n - 1) * size_t_wrap (n - 2)))%Z.
Proof.
  intros Hn.
  rewrite (size_t_wrap_small (n - 1)), (size_t_wrap_small (n - 2)) by lia.
  assert (size_t_wrap ((n - 1) * (n - 2)) <> 0%Z) as NZ.
  { replace ((n - 1) * (n - 2))%Z with ((n - 2) * (n - 2 + 1))%Z by lia.
    apply consecutive_product_wrap; lia. }
  assert (0 <= size_t_wrap ((n - 1) * (n - 2)))%Z
    by (apply Z.mod_pos_bound; lia).
  lia.
Qed.

Lemma edge_divisor_positive (n : Z) :
  (1 < n < 2 ^ 64)%Z -> (0 < size_t_wrap (n * size_t_wrap (n - 1)))%Z.
Proof.
  intros Hn. rewrite (size_t_wrap_small (n - 1)) by lia.
  assert (size_t_wrap (n * (n - 1)) <> 0%Z) as NZ.
  { replace (n * (n - 1))%Z with ((n - 1) * (n - 1 + 1))%Z by lia.
    apply consecutive_product_wrap; lia. }
  assert (0 <= size_t_wrap (n * (n - 1)))%Z by (apply Z.mod_pos_bound; lia).
  lia.
Qed.

End ExactFactors.

(** X5: the products in the two factors are computed in [size_t]: the
    vertex divisor is the product [(n-1)*(n-2)] exactly when [n <= 2^32 + 1]
    and the edge divisor is [n*(n-1)] exactly when [n <= 2^32]; above these
    counts the product wraps around and the factor, in exact arithmetic, is
    not the quotient [1/((n-1)*(n-2))], respectively [1/(n*(n-1))]. *)
Theorem factor_overflow_thresholds (n : Z) :
  n < 2 ^ 64 ->
  (2 < n ->
   (size_t_wrap (size_t_wrap (n - 1) * size_t_wrap (n - 2)) = (n - 1) * (n - 2)
    <-> n <= 2 ^ 32 + 1) /\
   ((@vfactor Q exact_scalar false n == 1 / inject_Z ((n - 1) * (n - 2)))%Q
    <-> n <= 2 ^ 32 + 1)) /\
  (1 < n ->
   (size_t_wrap (n * size_t_wrap (n - 1)) = n * (n - 1) <-> n <= 2 ^ 32) /\
   ((@efactor Q exact_scalar false n == 1 / inject_Z (n * (n - 1)))%Q
    <-> n <= 2 ^ 32)).
Proof.
  intros Hn. split; intros L.
  - assert (size_t_wrap (size_t_wrap (n - 1) * size_t_wrap (n - 2))
            = (n - 1) * (n - 2) <-> n <= 2 ^ 32 + 1) as T.
    { rewrite (size_t_wrap_small (n - 1)), (size_t_wrap_small (n - 2)) by lia.
      rewrite wrap_is_identity.
      replace ((n - 1) * (n - 2)) with ((n - 2) * (n - 2 + 1)) by lia.
      pose proof (consecutive_product_bound (n - 2) ltac:(lia)) as B.
      split; [intros [_ U]; apply B in U; lia |].
      intros U. split; [apply Z.mul_nonneg_nonneg; lia | apply B; lia]. }
    split; [exact T |]. rewrite <- T.
    unfold vfactor. rewrite (proj2 (Z.ltb_lt 2 n) L).
    change (s_div s_one ?x) with (1 / x)%Q. cbn [s_of_Z exact_scalar].
    rewrite unit_fraction_eq;
      [reflexivity | apply vertex_divisor_positive; lia
      | apply Z.mul_pos_pos; lia].
  - assert (size_t_wrap (n * size_t_wrap (n - 1)) = n * (n - 1)
            <-> n <= 2 ^ 32) as T.
    { rewrite (size_t_wrap_small (n - 1)) by lia.
      rewrite wrap_is_identity.
      replace (n * (n - 1)) with ((n - 1) * (n - 1 + 1)) by lia.
      pose proof (consecutive_product_bound (n - 1) ltac:(lia)) as B.
      split; [intros [_ U]; apply B in U; lia |].
      intros U. split; [apply Z.mul_nonneg_nonneg; lia | apply B; lia]. }
    split; [exact T |]. rewrite <- T.
    unfold efactor. rewrite (proj2 (Z.ltb_lt 1 n) L).
    change (s_div s_one ?x) with (1 / x)%Q. cbn [s_of_Z exact_scalar].
    rewrite unit_fraction_eq;
      [reflexivity | apply edge_divisor_positive; lia
      | apply Z.mul_pos_pos; lia].
Qed.

(** X5 at [2^32 + 2] vertices: the vertex divisor has wrapped. *)
Lemma factor_overflow_thresholds_witness :
  2 ^ 32 + 2 < 2 ^ 64 /\
  (size_t_wrap (size_t_wrap (2 ^ 32 + 2 - 1) * size_t_wrap (2 ^ 32 + 2 - 2))
   = (2 ^ 32 + 2 - 1) * (2 ^ 32 + 2 - 2)
   <-> 2 ^ 32 + 2 <= 2 ^ 32 + 1).
Proof.
  assert (2 ^ 32 + 2 < 2 ^ 64) as B by lia.
  split; [exact B |].
  refine (proj1 (proj1 (factor_overflow_thresholds (2 ^ 32 + 2) B) _)). lia.
Defined.

(** ** The entry point [betweenness] *)

Lemma belongs_properties (k : key_kind) (ts : list value_type) (a : any) :
  belongs (properties k ts) a = true <->
  exists p, a = any_property p /\ pm_kind p = k /\ pm_type p ∈ ts.
Proof.
  split.
  - destruct a as [| p |]; cbn; try discriminate.
    intros I. apply bool_decide_eq_true in I. unfold properties in I.
    apply list_elem_of_fmap in I as (t & [= Ek Et] & It).
    exists p. rewrite Ek, Et. auto.
  - intros (p & -> & Ek & It). cbn. apply bool_decide_eq_true.
    unfold properties. apply list_elem_of_fmap. exists (pm_type p).
    rewrite Ek. auto.
Qed.

Lemma any_cast_some (like : property_map) (a : any) :
  (exists p, any_cast like a = Some p) <->
  exists p, a = any_property p /\
            pm_kind p = pm_kind like /\ pm_type p = pm_type like.
Proof.
  split.
  - intros [p E]. destruct a as [| q |]; cbn in E; try discriminate.
    destruct (bool_decide _) eqn:D; [| discriminate].
    apply bool_decide_eq_true in D. eauto.
  - intros (p & -> & D). exists p. cbn. now rewrite bool_decide_eq_true_2.
Qed.

(** X7: [betweenness] succeeds exactly when the edge map is a floating-valued
    edge map, the vertex map a floating-valued vertex map, and the weights
    are either absent or an edge map of exactly the value type of the edge
    betweenness map. The two type checks run in the order of the source,
    before anything is done with the weights: a wrong edge map gives the
    edge message whatever the vertex map and the weights are, and the vertex
    message is given only when the edge map has passed. *)
Theorem betweenness_outcome {F : Type} `{Scalar F}
    (weight eb vb : any) (normalize : bool) (w : world F) :
  (fst (betweenness weight eb vb normalize w) = inr tt <->
   exists pe pv,
     eb = any_property pe /\ vb = any_property pv /\
     pm_kind pe = edge_key /\ pm_type pe ∈ floating_types /\
     pm_kind pv = vertex_key /\ pm_type pv ∈ floating_types /\
     (weight = any_empty \/
      exists pw, weight = any_property pw /\
                 pm_kind pw = edge_key /\ pm_type pw = pm_type pe)) /\
  (belongs edge_floating_properties eb = false ->
   betweenness weight eb vb normalize w =
     (inl (GraphException
             "edge property must be of floating point value type"), w)) /\
  (belongs edge_floating_properties eb = true ->
   belongs vertex_floating_properties vb = false ->
   betweenness weight eb vb normalize w =
     (inl (GraphException
             "vertex property must be of floating point value type"), w)).
Proof.
  split; [| split].
  - unfold betweenness.
    destruct (belongs edge_floating_properties eb) eqn:Ee; cbn [negb].
    2:{ split; [discriminate |].
        intros (pe & pv & -> & -> & Ke & Te & _).
        assert (belongs edge_floating_properties (any_property pe) = true) as T
          by (apply belongs_properties; eauto).
        congruence. }
    destruct (belongs vertex_floating_properties vb) eqn:Ev; cbn [negb].
    2:{ split; [discriminate |].
        intros (pe & pv & -> & -> & _ & _ & Kv & Tv & _).
        assert (belongs vertex_floating_properties (any_property pv) = true) as T
          by (apply belongs_properties; eauto).
        congruence. }
    apply belongs_properties in Ee as Pe. destruct Pe as (pe & -> & Ke & Te).
    apply belongs_properties in Ev as Pv. destruct Pv as (pv & -> & Kv & Tv).
    run_entry. rewrite Ee, Ev. cbn [andb].
    destruct weight as [| pw |]; cbn [any_is_empty negb].
    + split.
      * intros _. exists pe, pv. auto 10.
      * intros _. destruct normalize; reflexivity.
    + destruct (any_cast pe (any_property pw)) as [q |] eqn:C.
      * split.
        -- intros _. exists pe, pv.
           destruct (proj1 (any_cast_some pe (any_property pw)) (ex_intro _ q C))
             as (p' & [= <-] & Kw & Tw).
           split; [reflexivity |]. split; [reflexivity |].
           split; [exact Ke |]. split; [exact Te |].
           split; [exact Kv |]. split; [exact Tv |].
           right. exists pw. split; [reflexivity |]. split; congruence.
        -- intros _. destruct normalize; reflexivity.
      * split; [discriminate |].
        intros (pe' & pv' & [= <-] & _ & _ & _ & _ & _ & [D | (p' & [= <-] & Kw & Tw)]);
          [discriminate |].
        assert (exists p, any_cast pe (any_property pw) = Some p) as [p E].
        { apply any_cast_some. exists pw. split; [reflexivity |].
          split; congruence. }
        congruence.
    + cbn. split; [discriminate |].
      intros (pe' & pv' & _ & _ & _ & _ & _ & _ & [D | (p' & D & _)]);
        discriminate.
  - intros Ee. unfold betweenness. rewrite Ee. reflexivity.
  - intros Ee Ev. unfold betweenness. rewrite Ee, Ev. reflexivity.
Qed.

(** X8: the flag [normalize] does not decide whether [betweenness] succeeds,
    and the graph is never changed. A successful call with the flag set
    leaves the storages a call without the flag leaves, passed once through
    [normalize_betweenness] on the dispatched view with the vertex count of
    the interface; a failing call leaves every storage as it was. *)
Theorem normalize_is_postprocessing {F : Type} `{Scalar F}
    (weight eb vb : any) (w : world F) :
  let plain := betweenness weight eb vb false w in
  let normalized := betweenness weight eb vb true w in
  fst normalized = fst plain /\
  the_graph (snd normalized) = the_graph w /\
  the_graph (snd plain) = the_graph w /\
  (forall e, fst plain = inl e -> snd plain = w /\ snd normalized = w) /\
  (fst plain = inr tt ->
   exists pe pv, eb = any_property pe /\ vb = any_property pv /\
     the_props (snd normalized) =
       normalize_betweenness (GetGraphView true (the_graph w)) pe pv
         (GetNumberOfVertices (the_graph w)) (the_props (snd plain))).
Proof.
  unfold betweenness.
  destruct (belongs edge_floating_properties eb) eqn:Ee; cbn [negb];
    [| cbn; split; [| split; [| split; [| split]]];
       try reflexivity; [intros e _; split; reflexivity | discriminate]].
  destruct (belongs vertex_floating_properties vb) eqn:Ev; cbn [negb];
    [| cbn; split; [| split; [| split; [| split]]];
       try reflexivity; [intros e _; split; reflexivity | discriminate]].
  destruct (belongs_property _ _ Ee) as [pe ->].
  destruct (belongs_property _ _ Ev) as [pv ->].
  run_entry. rewrite Ee, Ev. cbn [andb].
  destruct (any_is_empty weight); cbn [negb].
  - cbn. split; [| split; [| split; [| split]]]; try reflexivity.
    + discriminate.
    + intros _. exists pe, pv. split; [| split]; reflexivity.
  - destruct (any_cast pe weight) as [pw |]; cbn.
    + split; [| split; [| split; [| split]]]; try reflexivity.
      * discriminate.
      * intros _. exists pe, pv. split; [| split]; reflexivity.
    + split; [| split; [| split; [| split]]]; try reflexivity.
      * intros e _. split; reflexivity.
      * discriminate.
Qed.

(** ** Sentinel keys of the hash containers *)

Lemma tuple_key_step (order : bool) (Val : key_type) (Vals : list key_type) :
  empty_key order (k_tuple (Val :: Vals)) =
  match empty_key order Val with
  | inl e => inl e
  | inr t => tuple_cat t (empty_key order (k_tuple Vals))
  end.
Proof. reflexivity. Qed.

Lemma deleted_tuple_key_step (order : bool) (Val : key_type)
    (Vals : list key_type) :
  deleted_key order (k_tuple (Val :: Vals)) =
  match deleted_key order Val with
  | inl e => inl e
  | inr t => tuple_cat t (deleted_key order (k_tuple Vals))
  end.
Proof. reflexivity. Qed.

Lemma tuple_key_throws (order : bool) (Vals : list key_type) :
  returns (empty_key order (k_tuple Vals)) = false /\
  returns (deleted_key order (k_tuple Vals)) = false.
Proof.
  induction Vals as [| Val Vals [IHe IHd]]; [split; reflexivity |].
  rewrite tuple_key_step, deleted_tuple_key_step. split.
  - destruct (empty_key order Val); [reflexivity |].
    destruct (empty_key order (k_tuple Vals)); [reflexivity | discriminate].
  - destruct (deleted_key order Val); [reflexivity |].
    destruct (deleted_key order (k_tuple Vals)); [reflexivity | discriminate].
Qed.

Lemma empty_key_returns (order : bool) (Key : key_type) :
  returns (empty_key order Key) = sentinel_free Key.
Proof.
  induction Key as [a | name | Key IH | Val1 IH1 Val2 IH2 | Vals].
  - reflexivity.
  - reflexivity.
  - cbn. rewrite <- IH. now destruct (empty_key order Key).
  - cbn. rewrite <- IH1, <- IH2. unfold make_pair.
    destruct (empty_key order Val1), (empty_key order Val2), order;
      reflexivity.
  - apply tuple_key_throws.
Qed.

Lemma deleted_key_returns (order : bool) (Key : key_type) :
  returns (deleted_key order Key) = sentinel_free Key.
Proof.
  induction Key as [a | name | Key IH | Val1 IH1 Val2 IH2 | Vals].
  - cbn. now destruct (is_integer a).
  - reflexivity.
  - cbn. rewrite <- IH. now destruct (deleted_key order Key).
  - cbn. rewrite <- IH1, <- IH2. unfold make_pair.
    destruct (deleted_key order Val1), (deleted_key order Val2), order;
      reflexivity.
  - apply tuple_key_throws.
Qed.

Lemma empty_key_exception (order : bool) (Key : key_type) (e : key_exn) :
  empty_key order Key = inl e -> is_no_empty_key e = true.
Proof.
  revert e. induction Key as [a | name | Key IH | Val1 Val2 IH1 IH2 | Vals IH]
    using key_type_forall_ind; intros e.
  - discriminate.
  - intros [= <-]. reflexivity.
  - cbn. destruct (empty_key order Key) as [e' |]; [| discriminate].
    intros [= <-]. now apply IH.
  - cbn. unfold make_pair.
    destruct (empty_key order Val1) as [e1 |],
      (empty_key order Val2) as [e2 |], order;
      try discriminate; intros [= <-]; auto.
  - induction IH as [| Val Vals IHVal _ IHVals].
    + intros [= <-]. reflexivity.
    + rewrite tuple_key_step.
      destruct (empty_key order Val) as [e' | t].
      * intros [= <-]. now apply IHVal.
      * pose proof (proj1 (tuple_key_throws order Vals)) as T.
        destruct (empty_key order (k_tuple Vals)) as [e' | v]; [| discriminate].
        intros [= <-]. now apply IHVals.
Qed.

Lemma deleted_key_exception (order : bool) (Key : key_type) (e : key_exn) :
  deleted_key order Key = inl e -> is_no_empty_key e = false.
Proof.
  revert e. induction Key as [a | name | Key IH | Val1 Val2 IH1 IH2 | Vals IH]
    using key_type_forall_ind; intros e.
  - cbn. destruct (is_integer a); discriminate.
  - intros [= <-]. reflexivity.
  - cbn. destruct (deleted_key order Key) as [e' |]; [| discriminate].
    intros [= <-]. now apply IH.
  - cbn. unfold make_pair.
    destruct (deleted_key order Val1) as [e1 |],
      (deleted_key order Val2) as [e2 |], order;
      try discriminate; intros [= <-]; auto.
  - induction IH as [| Val Vals IHVal _ IHVals].
    + intros [= <-]. reflexivity.
    + rewrite deleted_tuple_key_step.
      destruct (deleted_key order Val) as [e' | t].
      * intros [= <-]. now apply IHVal.
      * pose proof (proj2 (tuple_key_throws order Vals)) as T.
        destruct (deleted_key order (k_tuple Vals)) as [e' | v]; [| discriminate].
        intros [= <-]. now apply IHVals.
Qed.

Lemma tuple_of_supported (order : bool) (Vals : list key_type) :
  forallb sentinel_free Vals = true ->
  empty_key order (k_tuple Vals) = inl (no_empty_key (k_tuple [])) /\
  deleted_key order (k_tuple Vals) = inl (no_deleted_key (k_tuple [])).
Proof.
  induction Vals as [| Val Vals IH]; [split; reflexivity |].
  cbn [forallb]. intros [S Ss]%andb_true_iff.
  destruct (IH Ss) as [IHe IHd].
  rewrite tuple_key_step, deleted_tuple_key_step, IHe, IHd.
  pose proof (empty_key_returns order Val) as Re.
  pose proof (deleted_key_returns order Val) as Rd.
  rewrite S in Re, Rd.
  destruct (empty_key order Val); [discriminate |].
  destruct (deleted_key order Val); [discriminate |].
  split; reflexivity.
Qed.

Lemma max_minus_one_fits (signed : bool) (bits : positive) :
  convert (a_integer signed bits)
          (2 ^ (Z.pos bits - (if signed then 1 else 0)) - 1 - 1)
  = 2 ^ (Z.pos bits - (if signed then 1 else 0)) - 1 - 1.
Proof.
  assert (2 ^ Z.pos bits = 2 * 2 ^ (Z.pos bits - 1)) as D.
  { rewrite <- Z.pow_succ_r by lia. f_equal. lia. }
  assert (0 < 2 ^ (Z.pos bits - 1)) as P by (apply Z.pow_pos_nonneg; lia).
  destruct signed; cbn [convert].
  - replace (2 ^ (Z.pos bits - 1) - 1 - 1 + 2 ^ (Z.pos bits - 1))
      with (2 ^ Z.pos bits - 2) by lia.
    rewrite Z.mod_small; lia.
  - rewrite Z.sub_0_r. rewrite Z.mod_small; lia.
Qed.

Lemma power_of_two_is_two (p : Z) : 2 ^ p = 2 -> p = 1.
Proof.
  intros E. destruct (Z.lt_trichotomy p 1) as [L | [-> | G]]; [| reflexivity |].
  - destruct (Z.eq_dec p 0) as [-> | N]; [discriminate |].
    rewrite Z.pow_neg_r in E by lia. discriminate.
  - pose proof (Z.pow_le_mono_r 2 2 p ltac:(lia) ltac:(lia)) as B.
    change (2 ^ 2) with 4 in B. lia.
Qed.

Lemma arithmetic_sentinels_apart (order : bool) (a : arithmetic)
    (empty deleted : key_value) :
  empty_key order (k_arithmetic a) = inr empty ->
  deleted_key order (k_arithmetic a) = inr deleted ->
  empty <> deleted.
Proof.
  destruct a as [| signed bits | precision emax];
    cbn [empty_key deleted_key is_integer numeric_max numeric_min minus_one].
  - intros [= <-] [= <-]. discriminate.
  - rewrite max_minus_one_fits. intros [= <-] [= <-] [= E]. lia.
  - intros [= <-] [= <-]. intros [= Em Ee].
    assert (precision = 1) by (apply power_of_two_is_two; lia). lia.
Qed.

(** X9: [empty_key<Key>::get()] and [deleted_key<Key>::get()] return for
    exactly the same key types, those built from arithmetic types with
    [std::vector] and [std::pair], whatever the order in which
    [std::make_pair] evaluates its arguments; for every other key type the
    first throws a [no_empty_key] and the second a [no_deleted_key]. Every
    [std::tuple] is among the others: when all its components have their
    keys, the recursion ends in the primary template at [std::tuple<>] and
    throws there. *)
Theorem sentinel_keys_supported (order : bool) (Key : key_type) :
  returns (empty_key order Key) = sentinel_free Key /\
  returns (deleted_key order Key) = sentinel_free Key /\
  (forall e, empty_key order Key = inl e -> is_no_empty_key e = true) /\
  (forall e, deleted_key order Key = inl e -> is_no_empty_key e = false) /\
  (forall Vals, Key = k_tuple Vals ->
     returns (empty_key order Key) = false /\
     returns (deleted_key order Key) = false /\
     (forallb sentinel_free Vals = true ->
      empty_key order Key = inl (no_empty_key (k_tuple [])) /\
      deleted_key order Key = inl (no_deleted_key (k_tuple [])))).
Proof.
  split; [apply empty_key_returns |].
  split; [apply deleted_key_returns |].
  split; [intros e; apply empty_key_exception |].
  split; [intros e; apply deleted_key_exception |].
  intros Vals ->.
  split; [apply tuple_key_throws |].
  split; [apply tuple_key_throws |].
  apply tuple_of_supported.
Qed.

(** X10: whenever a key type has both sentinels, the empty key and the
    deleted key are different values, as the dense containers require of
    them. *)
Theorem sentinel_keys_differ (order : bool) (Key : key_type)
    (empty deleted : key_value) :
  empty_key order Key = inr empty ->
  deleted_key order Key = inr deleted ->
  empty <> deleted.
Proof.
  revert empty deleted.
  induction Key as [a | name | Key IH | Val1 IH1 Val2 IH2 | Vals];
    intros empty deleted.
  - apply arithmetic_sentinels_apart.
  - discriminate.
  - cbn. destruct (empty_key order Key) as [| v]; [discriminate |].
    destruct (deleted_key order Key) as [| v']; [discriminate |].
    intros [= <-] [= <-] [= E]. now apply (IH v v').
  - cbn. unfold make_pair.
    destruct (empty_key order Val1) as [| a], (empty_key order Val2) as [| b],
      (deleted_key order Val1) as [| a'], (deleted_key order Val2) as [| b'],
      order;
      try discriminate;
      intros [= <-] [= <-] [= E1 E2]; now apply (IH1 a a').
  - intros E. pose proof (proj1 (tuple_key_throws order Vals)) as T.
    rewrite E in T. discriminate.
Qed.

(** X10 at [std::pair<uint64_t, std::vector<double>>]. *)
Lemma sentinel_keys_differ_witness :
  let Key := k_pair (k_arithmetic (a_integer false 64))
                    (k_vector (k_arithmetic (a_floating 53 1023))) in
  empty_key true Key
    = inr (v_pair (v_integer (2 ^ 64 - 1))
                  (v_vector [v_floating (2 ^ 53 - 1) 971])) /\
  deleted_key true Key
    = inr (v_pair (v_integer (2 ^ 64 - 2))
                  (v_vector [v_floating 1 (- 1022)])) /\
  v_pair (v_integer (2 ^ 64 - 1)) (v_vector [v_floating (2 ^ 53 - 1) 971])
  <> v_pair (v_integer (2 ^ 64 - 2)) (v_vector [v_floating 1 (- 1022)]).
Proof.
  assert (empty_key true
            (k_pair (k_arithmetic (a_integer false 64))
                    (k_vector (k_arithmetic (a_floating 53 1023))))
          = inr (v_pair (v_integer (2 ^ 64 - 1))
                        (v_vector [v_floating (2 ^ 53 - 1) 971]))) as E
    by reflexivity.
  assert (deleted_key true
            (k_pair (k_arithmetic (a_integer false 64))
                    (k_vector (k_arithmetic (a_floating 53 1023))))
          = inr (v_pair (v_integer (2 ^ 64 - 2))
                        (v_vector [v_floating 1 (- 1022)]))) as D
    by reflexivity.
  split; [exact E |]. split; [exact D |].
  exact (sentinel_keys_differ true _ _ _ E D).
Defined.

(** X11: in every integer key type the two sentinels are the two largest
    values of the type: [max() - 1] does not wrap around at any width, and in
    [bool] the empty key is [true] and the deleted key [false]. In a
    floating key type the deleted key is the smallest positive normal
    number, not a value next to the largest. *)
Theorem arithmetic_sentinel_values (order : bool) :
  (forall (signed : bool) (bits : positive),
     let top := 2 ^ (Z.pos bits - (if signed then 1 else 0)) - 1 in
     empty_key order (k_arithmetic (a_integer signed bits))
       = inr (v_integer top) /\
     deleted_key order (k_arithmetic (a_integer signed bits))
       = inr (v_integer (top - 1)) /\
     exists low, numeric_min (a_integer signed bits) = v_integer low /\
                 low <= top - 1) /\
  (empty_key order (k_arithmetic a_bool) = inr (v_integer 1) /\
   deleted_key order (k_arithmetic a_bool) = inr (v_integer 0)) /\
  (forall precision emax,
     deleted_key order (k_arithmetic (a_floating precision emax))
       = inr (v_floating 1 (1 - emax))).
Proof.
  split; [| split; [split; reflexivity | reflexivity]].
  intros signed bits top. split; [reflexivity |]. split.
  - cbn [deleted_key is_integer numeric_max minus_one]. unfold top.
    now rewrite max_minus_one_fits.
  - assert (0 < 2 ^ (Z.pos bits - 1)) as P by (apply Z.pow_pos_nonneg; lia).
    assert (2 ^ Z.pos bits = 2 * 2 ^ (Z.pos bits - 1)) as D.
    { rewrite <- Z.pow_succ_r by lia. f_equal. lia. }
    unfold top. destruct signed; eexists; (split; [reflexivity |]);
      rewrite ?Z.sub_0_r; lia.
Qed.

(** X12: what the constructors of [gt_hash_set] and [gt_hash_map] do about
    the sentinels. Without the dense containers no constructor throws and
    none sets a key. With them, the constructor from an allocator sets no
    key, whatever the key type; each of the other three sets the two keys
    that [empty_key] and [deleted_key] return when the key type has them,
    and otherwise throws, always a [no_empty_key]: the deleted key is asked
    for only after the empty key was found. *)
Theorem constructors_set_sentinels (order : bool) (c : constructor)
    (Key Value : key_type) :
  gt_hash_map order false c Key Value
    = inr {| the_empty_key := None; the_deleted_key := None |} /\
  gt_hash_map order true from_allocator Key Value
    = inr {| the_empty_key := None; the_deleted_key := None |} /\
  (c <> from_allocator ->
   (sentinel_free Key = true ->
    exists empty deleted,
      empty_key order Key = inr empty /\
      deleted_key order Key = inr deleted /\
      gt_hash_map order true c Key Value
        = inr {| the_empty_key := Some empty;
                 the_deleted_key := Some deleted |}) /\
   (sentinel_free Key = false ->
    exists e, gt_hash_map order true c Key Value = inl e /\
              is_no_empty_key e = true)) /\
  gt_hash_set order true c Key = gt_hash_map order true c Key Value /\
  gt_hash_set order false c Key = gt_hash_map order false c Key Value.
Proof.
  split; [now destruct c |]. split; [reflexivity |].
  split; [| split; reflexivity].
  intros Hc.
  pose proof (empty_key_returns order Key) as Re.
  pose proof (deleted_key_returns order Key) as Rd.
  assert (gt_hash_map order true c Key Value =
          match empty_key order Key with
          | inl e => inl e
          | inr empty =>
              match deleted_key order Key with
              | inl e => inl e
              | inr deleted =>
                  inr {| the_empty_key := Some empty;
                         the_deleted_key := Some deleted |}
              end
          end) as ->
    by (destruct c; [reflexivity | contradiction | reflexivity | reflexivity]).
  split; intros S; rewrite S in Re, Rd.
  - destruct (empty_key order Key) as [| empty] eqn:Ee; [discriminate |].
    destruct (deleted_key order Key) as [| deleted] eqn:Ed; [discriminate |].
    exists empty, deleted. split; [reflexivity |]. split; reflexivity.
  - destruct (empty_key order Key) as [e |] eqn:Ee; [| discriminate].
    exists e. split; [reflexivity |].
    now apply (empty_key_exception order Key).
Qed.

(** ** The entry point of the block model generator *)

Lemma cast_unchecked_ok {F : Type} (t : value_type) (a : any) (w : world F) :
  (holds_vertex_map t a ->
   exists p, a = any_property p /\
             cast_unchecked (vprop_map_t t) a w = (inr p, w)) /\
  (~ holds_vertex_map t a ->
   cast_unchecked (vprop_map_t t) a w = (inl bad_any_cast, w)).
Proof.
  unfold cast_unchecked, holds_vertex_map. split.
  - intros (p & -> & K & T). exists p. split; [reflexivity |].
    cbn. rewrite bool_decide_eq_true_2 by (split; assumption). reflexivity.
  - intros N. destruct a as [| p |]; cbn; try reflexivity.
    destruct (bool_decide _) eqn:D; [| reflexivity].
    apply bool_decide_eq_true in D. cbn in D. exfalso. apply N. eauto.
Qed.

Lemma holds_vertex_map_decided (t : value_type) (a : any) :
  holds_vertex_map t a \/ ~ holds_vertex_map t a.
Proof.
  destruct a as [| p |].
  - right. intros (p & D & _). discriminate.
  - destruct (decide (pm_kind p = vertex_key /\ pm_type p = t)) as [D | N].
    + left. exists p. tauto.
    + right. intros (q & [= <-] & D). tauto.
  - right. intros (p & D & _). discriminate.
Qed.

(** X13: [generate_sbm] reaches the generator only with a block map that is
    exactly an [int32_t] vertex map and two degree maps that are exactly
    [double] vertex maps, and then the generator gets the very maps the
    caller passed. With the three arrays read, any other argument, an
    [int64_t] block map or a [long double] degree map included, ends the
    call in [bad_any_cast] before the generator runs: the graph and the
    storages are as they were, whatever the generator would do. *)
Theorem generate_sbm_exact_types {F : Type} (object array rng_t : Type)
    (get_array : value_type -> nat -> object -> exn + array)
    (run_gen_sbm : property_map -> array -> array -> array ->
                   property_map -> property_map -> rng_t -> M F rng_t)
    (ab : any) (ors oss oprobs : object) (ain_deg aout_deg : any)
    (rng : rng_t) (w : world F) (rs ss probs : array) :
  get_array t_int64_t 1%nat ors = inr rs ->
  get_array t_int64_t 1%nat oss = inr ss ->
  get_array t_double 2%nat oprobs = inr probs ->
  (holds_vertex_map t_int32_t ab /\ holds_vertex_map t_double ain_deg /\
   holds_vertex_map t_double aout_deg ->
   exists b in_deg out_deg,
     ab = any_property b /\ ain_deg = any_property in_deg /\
     aout_deg = any_property out_deg /\
     generate_sbm object array rng_t get_array run_gen_sbm
       ab ors oss oprobs ain_deg aout_deg rng w
     = run_gen_sbm b rs ss probs in_deg out_deg rng w) /\
  (~ (holds_vertex_map t_int32_t ab /\ holds_vertex_map t_double ain_deg /\
      holds_vertex_map t_double aout_deg) ->
   generate_sbm object array rng_t get_array run_gen_sbm
     ab ors oss oprobs ain_deg aout_deg rng w
   = (inl bad_any_cast, w)) /\
  (forall t l, t <> t_int32_t ->
     ~ holds_vertex_map t_int32_t (any_property (PMap vertex_key t l))) /\
  (forall t l, t <> t_double ->
     ~ holds_vertex_map t_double (any_property (PMap vertex_key t l))).
Proof.
  intros Ers Ess Eprobs.
  assert (forall t t' l, t <> t' ->
            ~ holds_vertex_map t' (any_property (PMap vertex_key t l))) as Wrong.
  { intros t t' l N (p & [= <-] & _ & T). cbn in T. congruence. }
  split; [| split; [| split; intros t l N; apply Wrong, N]].
  - intros (Hb & Hin & Hout).
    destruct (proj1 (cast_unchecked_ok t_int32_t ab w) Hb) as (b & -> & Cb).
    destruct (proj1 (cast_unchecked_ok t_double ain_deg w) Hin)
      as (in_deg & -> & Cin).
    destruct (proj1 (cast_unchecked_ok t_double aout_deg w) Hout)
      as (out_deg & -> & Cout).
    exists b, in_deg, out_deg.
    split; [reflexivity |]. split; [reflexivity |]. split; [reflexivity |].
    unfold generate_sbm, bind. rewrite Ers, Ess, Eprobs. cbn [of_result ret].
    unfold ret. now rewrite Cb, Cin, Cout.
  - intros N. unfold generate_sbm, bind. rewrite Ers, Ess, Eprobs.
    cbn [of_result]. unfold ret.
    destruct (holds_vertex_map_decided t_int32_t ab) as [Hb | Nb].
    2:{ now rewrite (proj2 (cast_unchecked_ok t_int32_t ab w) Nb). }
    destruct (proj1 (cast_unchecked_ok t_int32_t ab w) Hb) as (b & Eb & ->).
    destruct (holds_vertex_map_decided t_double ain_deg) as [Hin | Nin].
    2:{ now rewrite (proj2 (cast_unchecked_ok t_double ain_deg w) Nin). }
    destruct (proj1 (cast_unchecked_ok t_double ain_deg w) Hin)
      as (in_deg & Ein & ->).
    destruct (holds_vertex_map_decided t_double aout_deg) as [Hout | Nout].
    2:{ now rewrite (proj2 (cast_unchecked_ok t_double aout_deg w) Nout). }
    exfalso. apply N. auto.
Qed.

(** X13 at an [int64_t] block map: the call ends in [bad_any_cast]. *)
Lemma generate_sbm_exact_types_witness :
  generate_sbm nat nat nat (fun _ _ o => inr o)
    (fun _ _ _ _ _ _ rng => ret rng)
    (any_property (PMap vertex_key t_int64_t 3)) 4%nat 4%nat 16%nat
    (any_property (PMap vertex_key t_double 4))
    (any_property (PMap vertex_key t_double 5)) 0%nat star_world
  = (inl bad_any_cast, star_world).
Proof.
  refine (proj1 (proj2 (generate_sbm_exact_types nat nat nat
                          (fun _ _ o => inr o)
                          (fun _ _ _ _ _ _ rng => ret rng)
                          (any_property (PMap vertex_key t_int64_t 3))
                          4%nat 4%nat 16%nat
                          (any_property (PMap vertex_key t_double 4))
                          (any_property (PMap vertex_key t_double 5))
                          0%nat star_world 4%nat 4%nat 16%nat
                          eq_refl eq_refl eq_refl)) _).
  intros [(p & [= <-] & _ & T) _]. discriminate.
Defined.
